(** * Explora.AI chat threading: the message store and the reply grouping

    A shallow embedding of the conversation threading code of the chat
    interface:

    - [src/app/api/chat/route.ts]: the [ChatMessage] interface;
    - [src/components/chat/MessagesList.tsx]: the [ThreadedMessage]
      interface and the [messageGroups] reduction that organises the
      messages into a main message followed by its threaded replies;
    - [src/components/chat/ChatContainer] (the component owning the
      [messages], [isLoading] and [replyingTo] state hooks):
      [handleSendMessage], [handleReply], [handleCancelReply];
    - [src/components/chat/MessageBubble.tsx] and
      [src/components/chat/MessageInput.tsx]: what is rendered and
      [handleSubmit];
    - [src/app/api/chat/route.ts] and [src/lib/utils/api-response.ts]: the
      chat endpoint and its standardized responses;
    - the middleware in front of the pages and API routes;
    - [src/utils/formatDate.ts]: the relative date format.

    JavaScript strings are [string]; an optional property
    ([parentId?: string]) and a nullable state ([string | null]) are
    [option string]; arrays are lists.  The reduction mutates the group
    objects it has itself created during the same call
    ([parentGroup.replies.push]); each of them is referenced only from its
    slot of the accumulator array, so the mutation is an update of the
    accumulator at the index [find] returned. *)

From stdpp Require Import base list strings pretty numbers.

Local Open Scope string_scope.
Local Open Scope list_scope.

(** ** Data model *)

(** [role: 'user' | 'assistant' | 'system'] *)
Inductive MessageRole := user | assistant | system.

Global Instance MessageRole_eq_dec : EqDecision MessageRole.
Proof. solve_decision. Defined.

(** [ThreadedMessage extends ChatMessage]: the fields of [ChatMessage]
    ([id], [role], [content], [timestamp]) and the optional [parentId] and
    [threadIds].  The fields carry the prefix [msg_] ([id] is the identity
    function of the library). *)
Record ThreadedMessage := mkMessage {
  msg_id : string;
  msg_role : MessageRole;
  msg_content : string;
  msg_timestamp : N;
  msg_parentId : option string;
  msg_threadIds : option (list string)
}.

Global Instance ThreadedMessage_eq_dec : EqDecision ThreadedMessage.
Proof. solve_decision. Defined.

(** The element type of the accumulator of the reduction,
    [{ id: string; message: ThreadedMessage; replies: ThreadedMessage[] }]. *)
Record MessageGroup := mkGroup {
  grp_id : string;
  grp_message : ThreadedMessage;
  grp_replies : list ThreadedMessage
}.

Global Instance MessageGroup_eq_dec : EqDecision MessageGroup.
Proof. solve_decision. Defined.

(** ** JavaScript truthiness of an optional string

    [if (message.parentId)] and [if (replyingTo)] test truthiness:
    [undefined], [null] and the empty string are falsy, every other string
    is truthy. *)
Definition truthy (s : option string) : bool :=
  match s with
  | None => false
  | Some EmptyString => false
  | Some (String _ _) => true
  end.

(** ** The grouping reduction of [MessagesList] *)

(** [{ id: message.id, message, replies: [] }] *)
Definition new_group (message : ThreadedMessage) : MessageGroup :=
  {| grp_id := msg_id message; grp_message := message; grp_replies := [] |}.

(** [parentGroup.replies.push(message)] *)
Definition push_reply (message : ThreadedMessage) (parentGroup : MessageGroup)
  : MessageGroup :=
  {| grp_id := grp_id parentGroup;
     grp_message := grp_message parentGroup;
     grp_replies := grp_replies parentGroup ++ [message] |}.

(** [group => group.id === message.parentId] *)
Definition is_parent_of (message : ThreadedMessage) (group : MessageGroup) : Prop :=
  Some (grp_id group) = msg_parentId message.

Global Instance is_parent_of_dec message group :
  Decision (is_parent_of message group).
Proof. unfold is_parent_of. apply _. Defined.

(** The callback of [messages.reduce]: one message folded into the groups
    produced so far. *)
Definition group_step (groups : list MessageGroup) (message : ThreadedMessage)
  : list MessageGroup :=
  if truthy (msg_parentId message) then
    match list_find (is_parent_of message) groups with
    | Some (i, _) => alter (push_reply message) i groups
    | None => groups ++ [new_group message]
    end
  else groups ++ [new_group message].

(** [messages.reduce(callback, [])] *)
Definition messageGroups (messages : list ThreadedMessage) : list MessageGroup :=
  foldl group_step [] messages.

(** What is rendered: each group's main message followed by its replies. *)
Definition group_members (group : MessageGroup) : list ThreadedMessage :=
  grp_message group :: grp_replies group.

Definition rendered (groups : list MessageGroup) : list ThreadedMessage :=
  concat (group_members <$> groups).

(** ** The state of [ChatContainer]

    Three state hooks, [messages], [isLoading] and [replyingTo]; the
    handlers are computations over them. *)
Record ChatState := mkChat {
  messages : list ThreadedMessage;
  isLoading : bool;
  replyingTo : option string
}.

(** [useState([])], [useState(false)], [useState(null)] *)
Definition initial_state : ChatState :=
  {| messages := []; isLoading := false; replyingTo := None |}.

Definition Hook (A : Type) : Type := ChatState → A * ChatState.

Global Instance Hook_ret : MRet Hook := λ A a st, (a, st).

Global Instance Hook_bind : MBind Hook :=
  λ A B k c st, let (a, st') := c st in k a st'.

Definition run {A} (c : Hook A) (st : ChatState) : A * ChatState := c st.

(** [setMessages(prev => f(prev))] *)
Definition setMessages (f : list ThreadedMessage → list ThreadedMessage)
  : Hook unit :=
  λ st, (tt, {| messages := f (messages st);
                isLoading := isLoading st;
                replyingTo := replyingTo st |}).

Definition setIsLoading (b : bool) : Hook unit :=
  λ st, (tt, {| messages := messages st;
                isLoading := b;
                replyingTo := replyingTo st |}).

Definition setReplyingTo (r : option string) : Hook unit :=
  λ st, (tt, {| messages := messages st;
                isLoading := isLoading st;
                replyingTo := r |}).

Definition getReplyingTo : Hook (option string) := λ st, (replyingTo st, st).

(** [setMessages(prev => [...prev, message])], the only way the handlers
    change the message list (three call sites in [handleSendMessage]). *)
Definition append (message : ThreadedMessage) : Hook unit :=
  setMessages (λ prev, prev ++ [message]).

(** The render of [MessagesList] over the current [messages]. *)
Definition group : Hook (list MessageGroup) :=
  λ st, (messageGroups (messages st), st).

(** [Date.now().toString()] for a clock reading [now] in milliseconds. *)
Definition Date_toString (now : N) : string := pretty now.

(** The synchronous first part of [handleSendMessage(content)]: the user
    message is built from two clock readings, takes [replyingTo] as its
    [parentId] when that is truthy (and resets it), is appended, and the
    loading flag is raised.  The message is returned for the continuation. *)
Definition handleSendMessage_begin (now_id now_ts : N) (content : string)
  : Hook ThreadedMessage :=
  r ← getReplyingTo;
  let userMessage :=
    {| msg_id := Date_toString now_id; msg_role := user;
       msg_content := content; msg_timestamp := now_ts;
       msg_parentId := if truthy r then r else None;
       msg_threadIds := None |} in
  (if truthy r then setReplyingTo None else mret tt);;
  append userMessage;;
  setIsLoading true;;
  mret userMessage.

(** The continuation once the request has settled.  [Some message] is the
    [data.data.message] of a successful response: the assistant's message is
    appended with the user message's [parentId].  [None] is a failed request:
    the apology is appended in the same thread, with an id read from the
    clock.  In both cases the loading flag is lowered. *)
Definition handleSendMessage_settle (userMessage : ThreadedMessage)
    (response : option ThreadedMessage) (now_id now_ts : N) : Hook unit :=
  match response with
  | Some message =>
      append {| msg_id := msg_id message; msg_role := msg_role message;
                msg_content := msg_content message;
                msg_timestamp := msg_timestamp message;
                msg_parentId := msg_parentId userMessage;
                msg_threadIds := msg_threadIds message |}
  | None =>
      append {| msg_id := Date_toString now_id; msg_role := assistant;
                msg_content :=
                  "Sorry, I encountered an error processing your request. Please try again.";
                msg_timestamp := now_ts;
                msg_parentId := msg_parentId userMessage;
                msg_threadIds := None |}
  end;;
  setIsLoading false.

(** [handleReply(messageId)] and [handleCancelReply()] *)
Definition handleReply (messageId : string) : Hook unit :=
  setReplyingTo (Some messageId).

Definition handleCancelReply : Hook unit := setReplyingTo None.

(** ** Sample messages

    [sample i p] is a user message with id [i] and [parentId] [p]; the
    example scenario of the specification is [scenario]. *)
Definition sample (i : string) (p : option string) : ThreadedMessage :=
  {| msg_id := i; msg_role := user; msg_content := "tell me more";
     msg_timestamp := 0; msg_parentId := p; msg_threadIds := None |}.

Definition scenario : list ThreadedMessage :=
  [ {| msg_id := "1"; msg_role := user; msg_content := "What is inflation?";
       msg_timestamp := 1; msg_parentId := None; msg_threadIds := None |};
    {| msg_id := "2"; msg_role := assistant; msg_content := "...";
       msg_timestamp := 2; msg_parentId := None; msg_threadIds := None |};
    {| msg_id := "3"; msg_role := user; msg_content := "tell me more";
       msg_timestamp := 3; msg_parentId := Some "1"; msg_threadIds := None |} ].

(** ** Statements about the groups of a message list *)

(** [m] has a [parentId], and no group produced from the messages [pre]
    before it has that id. *)
Definition unresolved (pre : list ThreadedMessage) (m : ThreadedMessage) : Prop :=
  is_Some (msg_parentId m)
  ∧ Forall (λ g, msg_parentId m ≠ Some (grp_id g)) (messageGroups pre).

(** The group started by [r] (after the messages [pre]) ends up holding every
    message of [post] whose [parentId] is the id of [r]. *)
Definition collects_later_replies (pre : list ThreadedMessage)
    (r : ThreadedMessage) (post : list ThreadedMessage) : Prop :=
  ∀ m, m ∈ post → msg_parentId m = Some (msg_id r) →
    ∃ g, messageGroups (pre ++ r :: post) !! length (messageGroups pre) = Some g
         ∧ grp_message g = r ∧ m ∈ grp_replies g.

(** Two main messages [a1] and [a2] of the list [l0 ++ a1 :: l1 ++ a2 :: l2]
    each have a group of their own, and the messages after [a1] whose
    [parentId] is the id of [a1] are replies of the group of [a1] and not of
    the group of [a2]. *)
Definition first_match_resolution (l0 : list ThreadedMessage)
    (a1 : ThreadedMessage) (l1 : list ThreadedMessage) (a2 : ThreadedMessage)
    (l2 : list ThreadedMessage) : Prop :=
  let gs := messageGroups (l0 ++ a1 :: l1 ++ a2 :: l2) in
  let k1 := length (messageGroups l0) in
  let k2 := length (messageGroups (l0 ++ a1 :: l1)) in
  ∃ rs1 rs2,
    k1 < k2
    ∧ gs !! k1 = Some {| grp_id := msg_id a1; grp_message := a1;
                         grp_replies := rs1 |}
    ∧ gs !! k2 = Some {| grp_id := msg_id a2; grp_message := a2;
                         grp_replies := rs2 |}
    ∧ ∀ m, m ∈ l1 ++ a2 :: l2 → msg_parentId m = Some (msg_id a1) →
        m ∈ rs1 ∧ m ∉ rs2.

(** [a1] and [a2] are main messages (no [parentId]) with the same id, and
    [a1] is the earliest main message of the list with that id: none of the
    messages [l0] before it is one. *)
Definition shares_main_id (l0 : list ThreadedMessage)
    (a1 a2 : ThreadedMessage) : Prop :=
  msg_parentId a1 = None ∧ msg_parentId a2 = None
  ∧ msg_id a2 = msg_id a1
  ∧ Forall (λ a, msg_parentId a = None → msg_id a ≠ msg_id a1) l0.

(** ** The grouping a well-threaded list is expected to have *)

(** The ids of the list are pairwise distinct. *)
Definition distinct_ids (ms : list ThreadedMessage) : Prop :=
  NoDup (msg_id <$> ms).

(** Every message bearing a [parentId] references the id of an earlier
    message that has no [parentId]. *)
Definition replies_follow_mains (ms : list ThreadedMessage) : Prop :=
  ∀ i m p, ms !! i = Some m → msg_parentId m = Some p →
    ∃ j a, j < i ∧ ms !! j = Some a ∧ msg_id a = p ∧ msg_parentId a = None.

(** The group of the main message [a]: its replies are the messages of the
    list whose [parentId] is the id of [a], in order. *)
Definition thread_of (ms : list ThreadedMessage) (a : ThreadedMessage)
  : MessageGroup :=
  {| grp_id := msg_id a; grp_message := a;
     grp_replies := filter (λ r, msg_parentId r = Some (msg_id a)) ms |}.

(** One group per message without [parentId], in order. *)
Definition expected_groups (ms : list ThreadedMessage) : list MessageGroup :=
  thread_of ms <$> filter (λ a, msg_parentId a = None) ms.

(** ** One level of replies *)

(** A group is well formed when its id is the id of its main message and
    every reply bears that id as [parentId]. *)
Definition group_ok (g : MessageGroup) : Prop :=
  grp_id g = msg_id (grp_message g)
  ∧ Forall (λ r, msg_parentId r = Some (grp_id g)) (grp_replies g).

(** In the list [pre ++ m :: post], whenever the [parentId] of [m] is the id
    of a message [r] that the grouping places as a reply, [m] starts a group
    of its own. *)
Definition reply_to_reply_starts_group (pre : list ThreadedMessage)
    (m : ThreadedMessage) (post : list ThreadedMessage) : Prop :=
  ∀ g r, g ∈ messageGroups (pre ++ m :: post) → r ∈ grp_replies g →
    msg_parentId m = Some (msg_id r) →
    messageGroups (pre ++ [m]) = messageGroups pre ++ [new_group m].

(** ** Appending with a duplicate check

    The [append] worded by the specification, which the source does not
    implement: it fails with [DuplicateIdError] when the id is already
    present and appends otherwise. *)
Inductive AppendOutcome :=
  | DuplicateIdError
  | Appended (st : ChatState).

Definition append_checked (message : ThreadedMessage) (st : ChatState)
  : AppendOutcome :=
  if decide (msg_id message ∈ msg_id <$> messages st)
  then DuplicateIdError
  else Appended {| messages := messages st ++ [message];
                   isLoading := isLoading st;
                   replyingTo := replyingTo st |}.

(** What the source's [append] does, as an outcome: the state updater has no
    failing path. *)
Definition append_outcome (message : ThreadedMessage) (st : ChatState)
  : AppendOutcome :=
  Appended (run (append message) st).2.

(** * The components around the grouping

    What [MessageBubble], [MessagesList] and [MessageInput] render, as far as
    it depends on their props and state, and the events of the page. *)

(** ** [MessageBubble] *)

(** [bubbleStyles], chosen by the role of the message. *)
Inductive BubbleStyle := UserBubble | SystemBubble | AssistantBubble.

(** The bubble of one message: the thread indicator (the text after
    [In reply to message #], when shown), the style and the alignment, the
    content, the timestamp handed to the time formatter, and the Reply button
    (the effect of clicking it, when shown). *)
Record BubbleView := mkBubble {
  bv_indicator : option string;
  bv_style : BubbleStyle;
  bv_alignRight : bool;
  bv_content : string;
  bv_timestamp : N;
  bv_replyButton : option (Hook unit)
}.

(** [String.prototype.substring] is the platform's (it counts UTF-16 code
    units); the components are modelled over an arbitrary [substring], applied
    to the start index, the end index and the string. *)
Section Rendering.
Variable substring : nat → nat → string → string.

(** [MessageBubble({ message, isThread = false, parentId, onReply })]:
    the indicator is rendered under [isThread && parentId] with
    [parentId.substring(0, 8)], the button under [onReply && !isThread] with
    [onClick={() => onReply(message.id)}]. *)
Definition MessageBubble (message : ThreadedMessage) (isThread : bool)
    (parentId : option string) (onReply : option (string → Hook unit))
  : BubbleView :=
  let isUser := bool_decide (msg_role message = user) in
  let isSystem := bool_decide (msg_role message = system) in
  {| bv_indicator :=
       if isThread && truthy parentId
       then substring 0 8 <$> parentId else None;
     bv_style :=
       if isUser then UserBubble
       else if isSystem then SystemBubble else AssistantBubble;
     bv_alignRight := isUser;
     bv_content := msg_content message;
     bv_timestamp := msg_timestamp message;
     bv_replyButton :=
       match onReply with
       | Some f => if negb isThread then Some (f (msg_id message)) else None
       | None => None
       end |}.

(** ** [MessagesList] *)

(** One [message-group]: its key, the bubble of the main message and the
    keyed bubbles of the replies. *)
Record GroupView := mkGroupView {
  gv_key : string;
  gv_main : BubbleView;
  gv_replies : list (string * BubbleView)
}.

(** The list shows the invitation to start a conversation or the groups. *)
Inductive MessagesListBody :=
  | StartPrompt
  | GroupViews (groups : list GroupView).

Record MessagesListView := mkListView {
  mlv_body : MessagesListBody;
  mlv_typing : bool
}.

(** The body of [messageGroups.map(group => ...)]: the main message gets
    [onReply], the replies get [isThread={true}] and
    [parentId={group.message.id}] and no [onReply]. *)
Definition render_group (onReply : option (string → Hook unit))
    (group : MessageGroup) : GroupView :=
  {| gv_key := grp_id group;
     gv_main := MessageBubble (grp_message group) false None onReply;
     gv_replies :=
       (λ reply, (msg_id reply,
                  MessageBubble reply true
                    (Some (msg_id (grp_message group))) None))
       <$> grp_replies group |}.

(** [MessagesList({ messages, isLoading = false, onReply })] *)
Definition MessagesList (messages : list ThreadedMessage) (isLoading : bool)
    (onReply : option (string → Hook unit)) : MessagesListView :=
  {| mlv_body :=
       if decide (length messages = 0) then StartPrompt
       else GroupViews (render_group onReply <$> messageGroups messages);
     mlv_typing := isLoading |}.

(** The list as [ChatContainer] renders it:
    [<MessagesList messages={messages} isLoading={isLoading}
    onReply={handleReply} />]. *)
Definition ChatContainer_list (st : ChatState) : MessagesListView :=
  MessagesList (messages st) (isLoading st) (Some handleReply).
End Rendering.

(** ** [MessageInput]

    [String.prototype.trim] is the platform's; the component is modelled over
    an arbitrary [trim]. *)
Section MessageInput.
Variable substring : nat → nat → string → string.
Variable trim : string → string.

(** [handleSubmit]: the new value of the input state and the text passed
    to [onSend], if the guard [!input.trim() || disabled] lets it through. *)
Definition handleSubmit (disabled : bool) (input : string)
  : string * option string :=
  if bool_decide (trim input = EmptyString) || disabled
  then (input, None)
  else (EmptyString, Some (trim input)).

(** ** The page: container, list and input together

    The state of the page is the state of the container, the text in the
    input and the user messages whose request has not settled yet (each is
    held by the suspended [handleSendMessage] that built it). *)
Record UiState := mkUi {
  ui_chat : ChatState;
  ui_input : string;
  ui_pending : list ThreadedMessage
}.

Definition ui_initial : UiState :=
  {| ui_chat := initial_state; ui_input := EmptyString; ui_pending := [] |}.

(** What can happen on the page: typing, a click on the Reply button of
    the [k]-th group, a click on Cancel, a submit of the form (with the two
    clock readings of [handleSendMessage]), and the settling of the
    [i]-th pending request (with the message of a successful response, or
    [None] for a failure, and the two clock readings of the apology). *)
Inductive UiEvent :=
  | TypeText (value : string)
  | ClickReply (k : nat)
  | ClickCancel
  | SubmitForm (now_id now_ts : N)
  | RequestSettled (i : nat) (response : option ThreadedMessage)
                   (now_id now_ts : N).

(** The Reply button of the [k]-th group as rendered, if there is one. *)
Definition reply_button (st : ChatState) (k : nat) : option (Hook unit) :=
  match mlv_body (ChatContainer_list substring st) with
  | StartPrompt => None
  | GroupViews groups => gv ← groups !! k; bv_replyButton (gv_main gv)
  end.

Definition with_chat (s : UiState) (st : ChatState) : UiState :=
  {| ui_chat := st; ui_input := ui_input s; ui_pending := ui_pending s |}.

(** One event.  An event that the page does not offer (a button that is
    not rendered, a request that is not pending) changes nothing.  The
    input is rendered with [disabled={isLoading}], and the Cancel button
    under [replyingTo]. *)
Definition ui_step (e : UiEvent) (s : UiState) : UiState :=
  match e with
  | TypeText value =>
      {| ui_chat := ui_chat s; ui_input := value;
         ui_pending := ui_pending s |}
  | ClickReply k =>
      match reply_button (ui_chat s) k with
      | Some click => with_chat s (run click (ui_chat s)).2
      | None => s
      end
  | ClickCancel =>
      if truthy (replyingTo (ui_chat s))
      then with_chat s (run handleCancelReply (ui_chat s)).2
      else s
  | SubmitForm now_id now_ts =>
      match handleSubmit (isLoading (ui_chat s)) (ui_input s) with
      | (input', Some text) =>
          let (userMessage, st') :=
            run (handleSendMessage_begin now_id now_ts text) (ui_chat s) in
          {| ui_chat := st'; ui_input := input';
             ui_pending := ui_pending s ++ [userMessage] |}
      | (_, None) => s
      end
  | RequestSettled i response now_id now_ts =>
      match ui_pending s !! i with
      | Some userMessage =>
          {| ui_chat :=
               (run (handleSendMessage_settle userMessage response
                       now_id now_ts) (ui_chat s)).2;
             ui_input := ui_input s;
             ui_pending := delete i (ui_pending s) |}
      | None => s
      end
  end.

(** The states the page can be in. *)
Inductive reachable : UiState → Prop :=
  | reachable_initial : reachable ui_initial
  | reachable_step e s : reachable s → reachable (ui_step e s).
End MessageInput.

(** Every message with a truthy [parentId] finds its parent among the groups
    produced from the messages before it: the branch of the reduction for a
    parent that is not found is never taken. *)
Definition orphan_free (ms : list ThreadedMessage) : Prop :=
  ∀ i m, ms !! i = Some m → truthy (msg_parentId m) = true →
    Exists (is_parent_of m) (messageGroups (take i ms)).

(** ** Invariants of the page *)

(** No request is pending and the loading flag is down, or exactly one is
    pending and the flag is up. *)
Definition one_request (s : UiState) : Prop :=
  (ui_pending s = [] ∧ isLoading (ui_chat s) = false)
  ∨ (∃ u, ui_pending s = [u] ∧ isLoading (ui_chat s) = true).

(** Every [parentId] in the store, in the reply target and in the pending
    requests is non-empty and is the id of a group of the store. *)
Definition threads_resolved (s : UiState) : Prop :=
  orphan_free (messages (ui_chat s))
  ∧ Forall (λ m, msg_parentId m ≠ Some EmptyString) (messages (ui_chat s))
  ∧ (truthy (replyingTo (ui_chat s)) = true →
     Exists (λ g, Some (grp_id g) = replyingTo (ui_chat s))
            (messageGroups (messages (ui_chat s))))
  ∧ Forall (λ u, msg_parentId u ≠ Some EmptyString
                 ∧ (truthy (msg_parentId u) = true →
                    Exists (is_parent_of u)
                           (messageGroups (messages (ui_chat s)))))
           (ui_pending s).

(** * The chat endpoint

    [src/app/api/chat/route.ts] and the response helpers of
    [src/lib/utils/api-response.ts].  A request body is a JSON value as
    [request.json()] parses it; JavaScript numbers are kept abstract, with
    their truthiness. *)
#[local] Set Warnings "-register-all".

Section ChatApi.
Variable Num : Type.
Variable num_truthy : Num → bool.
Variable num_of_N : N → Num.

Inductive JsonValue :=
  | JNull
  | JBool (b : bool)
  | JNumber (n : Num)
  | JString (s : string)
  | JArray (items : list JsonValue)
  | JObject (fields : list (string * JsonValue)).

(** Truthiness of a parsed value: [null], [false], a falsy number and the
    empty string are falsy; arrays and objects are truthy. *)
Definition json_truthy (v : JsonValue) : bool :=
  match v with
  | JNull => false
  | JBool b => b
  | JNumber n => num_truthy n
  | JString EmptyString => false
  | JString (String _ _) => true
  | JArray _ | JObject _ => true
  end.

(** [Array.isArray] *)
Definition isArray (v : JsonValue) : bool :=
  match v with JArray _ => true | _ => false end.

(** The value of a key among the fields of an object; as in [JSON.parse],
    the last occurrence of a repeated key wins. *)
Definition json_field (key : string) (fields : list (string * JsonValue))
  : option JsonValue :=
  foldl (λ found kv, if decide (kv.1 = key) then Some kv.2 else found)
        None fields.

(** [body.messages]: reading the property throws on [null] (the outer
    [None]); on the other values it is the field of an object and
    [undefined] (the inner [None]) otherwise. *)
Definition body_messages (body : JsonValue) : option (option JsonValue) :=
  match body with
  | JNull => None
  | JObject fields => Some (json_field "messages" fields)
  | _ => Some None
  end.

(** The body of a standardized response: [{ data, meta? }] or
    [{ error: { message, code?, details? } }]. *)
Inductive ApiBody (T Meta : Type) :=
  | SuccessBody (data : T) (meta : option Meta)
  | ErrorBody (message : string) (code : option string)
              (details : option JsonValue).

Record NextResponse (T Meta : Type) := mkResponse {
  resp_status : nat;
  resp_body : ApiBody T Meta
}.

(** A missing argument takes the default of the parameter. *)
Definition or_default {A} (d : A) (arg : option A) : A :=
  match arg with Some a => a | None => d end.

(** [successResponse(data, meta?, status = 200)]: [meta] is spread in only
    when given. *)
Definition successResponse {T Meta} (data : T) (meta : option Meta)
    (status : option nat) : NextResponse T Meta :=
  {| resp_status := or_default 200 status;
     resp_body := SuccessBody T Meta data meta |}.

(** [errorResponse(message, code?, details?, status = 400)]: [code] and
    [details] are spread in only when truthy. *)
Definition errorResponse {T Meta} (message : string) (code : option string)
    (details : option JsonValue) (status : option nat) : NextResponse T Meta :=
  {| resp_status := or_default 400 status;
     resp_body :=
       ErrorBody T Meta message
         (if truthy code then code else None)
         (match details with
          | Some d => if json_truthy d then Some d else None
          | None => None
          end) |}.

(** The responders of [apiResponses] used by the chat route. *)
Definition badRequest {T Meta} (message : option string)
    (code : option string) (details : option JsonValue) : NextResponse T Meta :=
  errorResponse (or_default "Bad request" message) code details (Some 400).

Definition internalServerError {T Meta} (message : option string)
    (code : option string) (details : option JsonValue) : NextResponse T Meta :=
  errorResponse (or_default "Internal server error" message) code details
                (Some 500).

(** [dummyResponse], from two readings of the server's clock. *)
Definition dummyResponse (now_id now_ts : N) : ThreadedMessage :=
  {| msg_id := Date_toString now_id; msg_role := assistant;
     msg_content :=
       "This is a dummy response from the Explora.AI API. In a real implementation, this would be a response from an AI service.";
     msg_timestamp := now_ts; msg_parentId := None; msg_threadIds := None |}.

(** The [try] block of [POST]; [None] is a thrown exception.  [body] is
    what [request.json()] gives, [None] when it rejects. *)
Definition POST_try (body : option JsonValue) (now_id now_ts : N)
  : option (NextResponse ThreadedMessage Empty_set) :=
  body ← body;
  messages ← body_messages body;
  if negb (from_option json_truthy false messages)
     || negb (from_option isArray false messages)
  then Some (badRequest (Some "Messages array is required") None None)
  else Some (successResponse (dummyResponse now_id now_ts) None None).

(** [POST(request)]: the [catch] answers with [internalServerError()]. *)
Definition POST (body : option JsonValue) (now_id now_ts : N)
  : NextResponse ThreadedMessage Empty_set :=
  match POST_try body now_id now_ts with
  | Some response => response
  | None => internalServerError None None None
  end.

(** The request of [handleSendMessage]: [{ messages: contextMessages }],
    where each message of the context keeps its [id], [role], [content] and
    [timestamp] only.  The body is taken as the server parses it. *)
Definition role_name (role : MessageRole) : string :=
  match role with
  | user => "user" | assistant => "assistant" | system => "system"
  end.

Definition context_message (msg : ThreadedMessage) : JsonValue :=
  JObject [ ("id", JString (msg_id msg));
            ("role", JString (role_name (msg_role msg)));
            ("content", JString (msg_content msg));
            ("timestamp", JNumber (num_of_N (msg_timestamp msg))) ].

Definition request_body (messages : list ThreadedMessage)
    (userMessage : ThreadedMessage) : JsonValue :=
  JObject [ ("messages",
             JArray (context_message <$> messages ++ [userMessage])) ].

(** What the client makes of the response: [response.ok] is a status from
    200 to 299, and [data.data.message] is then the message of the body. *)
Definition response_message (response : NextResponse ThreadedMessage Empty_set)
  : option ThreadedMessage :=
  if bool_decide (200 ≤ resp_status _ _ response < 300)%nat then
    match resp_body _ _ response with
    | SuccessBody _ _ data _ => Some data
    | ErrorBody _ _ _ _ _ => None
    end
  else None.
End ChatApi.

Arguments JNull {Num}.
Arguments JBool {Num} b.
Arguments JNumber {Num} n.
Arguments JString {Num} s.
Arguments JArray {Num} items.
Arguments JObject {Num} fields.
Arguments SuccessBody {Num T Meta} data meta.
Arguments ErrorBody {Num T Meta} message code details.
Arguments resp_status {Num T Meta} _.
Arguments resp_body {Num T Meta} _.
Arguments json_field {Num} key fields.
Arguments body_messages {Num} body.
Arguments POST {Num} num_truthy body now_id now_ts.
Arguments POST_try {Num} num_truthy body now_id now_ts.
Arguments request_body {Num} num_of_N messages userMessage.
Arguments context_message {Num} num_of_N msg.
Arguments response_message {Num} response.

(** * The middleware

    The route protection in front of the pages and of the API routes
    (the chat endpoint included). *)

Definition protectedPaths : list string :=
  ["/dashboard"; "/profile"; "/learning-paths"; "/highlights"; "/assessments"].

Definition authRedirectPaths : list string := ["/login"; "/register"].

Definition publicApiPaths : list string := ["/api/health"; "/api/auth"].

(** [path.startsWith(prefix)] *)
Definition startsWith (path prefix : string) : bool := String.prefix prefix path.

(** [protectedPaths.some(prefix => path.startsWith(prefix))] and its
    siblings. *)
Definition isProtectedPath (path : string) : bool :=
  existsb (startsWith path) protectedPaths.

Definition isAuthRedirectPath (path : string) : bool :=
  existsb (startsWith path) authRedirectPaths.

Definition isPublicApiPath (path : string) : bool :=
  existsb (startsWith path) publicApiPaths.

Definition isNextInternalPath (path : string) : bool :=
  startsWith path "/_next" || startsWith path "/favicon"
  || startsWith path "/public".

(** The fields of the token that the middleware reads. *)
Record Token := mkToken {
  tok_id : string;
  tok_role : option string
}.

(** What the middleware answers: [NextResponse.next()], the same with the
    user's id and role added to the request headers, a redirect to the
    request's URL with another [pathname] (and, for the login page, the
    [callbackUrl] parameter set), or the JSON body [{ error: 'Unauthorized' }]
    with a status. *)
Inductive MiddlewareResponse :=
  | NextPlain
  | NextWithUser (x_user_id x_user_role : string)
  | RedirectTo (pathname : string) (callbackUrl : option string)
  | JsonUnauthorized (status : nat).

(** [middleware(request)], for the [pathname] of the request and the token
    that [getToken] finds ([None] for [null]). *)
Definition middleware (pathname : string) (token : option Token)
  : MiddlewareResponse :=
  if isNextInternalPath pathname then NextPlain
  else if isPublicApiPath pathname then NextPlain
  else
    match token with
    | Some token =>
        if isAuthRedirectPath pathname then RedirectTo "/dashboard" None
        else if startsWith pathname "/api/" then
          NextWithUser (tok_id token)
            (if truthy (tok_role token)
             then default "user" (tok_role token) else "user")
        else NextPlain
    | None =>
        if isProtectedPath pathname then RedirectTo "/login" (Some pathname)
        else if startsWith pathname "/api/" && negb (isPublicApiPath pathname)
        then JsonUnauthorized 401
        else NextPlain
    end.

(** * Date formatting

    [src/utils/formatDate.ts].  A valid date is its time value in
    milliseconds; [Intl.DateTimeFormat] is the platform's and is a
    parameter, applied to the month style ([true] for [long]) and to
    [includeTime]. *)
Inductive DateFormat := FormatShort | FormatLong | FormatRelative.

Section FormatDate.
Variable intl_format : bool → bool → Z → string.

(** The part of [formatDate] after the test for the relative format. *)
Definition formatDate_absolute (format : DateFormat) (includeTime : bool)
    (date : Z) : string :=
  intl_format (match format with FormatShort => false | _ => true end)
              includeTime date.

(** [getRelativeTimeString(date)], with the reading [now] of the clock.
    [Math.floor] of a quotient is the division of integers; the last case is
    [formatDate(date, { format: 'short' })]. *)
Definition getRelativeTimeString (now date : Z) : string :=
  let diffInMs := (now - date)%Z in
  let diffInSecs := Z.div diffInMs 1000 in
  let diffInMins := Z.div diffInSecs 60 in
  let diffInHours := Z.div diffInMins 60 in
  let diffInDays := Z.div diffInHours 24 in
  if bool_decide (diffInSecs < 60)%Z then "just now"
  else if bool_decide (diffInMins < 60)%Z then
    pretty diffInMins +:+ " minute"
      +:+ (if bool_decide (diffInMins > 1)%Z then "s" else EmptyString)
      +:+ " ago"
  else if bool_decide (diffInHours < 24)%Z then
    pretty diffInHours +:+ " hour"
      +:+ (if bool_decide (diffInHours > 1)%Z then "s" else EmptyString)
      +:+ " ago"
  else if bool_decide (diffInDays < 7)%Z then
    pretty diffInDays +:+ " day"
      +:+ (if bool_decide (diffInDays > 1)%Z then "s" else EmptyString)
      +:+ " ago"
  else formatDate_absolute FormatShort false date.

(** [formatDate(date, { format = 'short', includeTime = false } = {})] *)
Definition formatDate (now date : Z) (format : option DateFormat)
    (includeTime : option bool) : string :=
  let format := from_option (λ f, f) FormatShort format in
  let includeTime := from_option (λ b, b) false includeTime in
  match format with
  | FormatRelative => getRelativeTimeString now date
  | _ => formatDate_absolute format includeTime date
  end.
End FormatDate.

(** ** A chat request through the middleware

    The request of [handleSendMessage] goes to [/api/chat]; the middleware
    runs first, and the route only if it lets the request through.  The
    result is what the client gets out of the response: the message of a
    response with an ok status, or nothing (the client then stores its
    apology); the middleware's own answers carry no message. *)
Definition chat_fetch {Num : Type} (num_truthy : Num → bool)
    (token : option Token) (body : option (JsonValue Num))
    (now_id now_ts : N) : option ThreadedMessage :=
  match middleware "/api/chat" token with
  | NextPlain | NextWithUser _ _ =>
      response_message (POST num_truthy body now_id now_ts)
  | RedirectTo _ _ | JsonUnauthorized _ => None
  end.

(** * Properties *)

(** ** One step of the reduction *)

Lemma truthy_Some (p : string) : p ≠ EmptyString → truthy (Some p) = true.
Proof. by destruct p. Qed.

Lemma truthy_true_inv (s : option string) :
  truthy s = true → ∃ p, s = Some p ∧ p ≠ EmptyString.
Proof. destruct s as [[|c p]|]; naive_solver. Qed.

Lemma messageGroups_snoc (ms : list ThreadedMessage) (m : ThreadedMessage) :
  messageGroups (ms ++ [m]) = group_step (messageGroups ms) m.
Proof. unfold messageGroups. by rewrite foldl_snoc. Qed.

Lemma messageGroups_app (ms1 ms2 : list ThreadedMessage) :
  messageGroups (ms1 ++ ms2) = foldl group_step (messageGroups ms1) ms2.
Proof. unfold messageGroups. by rewrite foldl_app. Qed.

(** A message whose [parentId] is falsy starts a group. *)
Lemma group_step_main (gs : list MessageGroup) (m : ThreadedMessage) :
  truthy (msg_parentId m) = false → group_step gs m = gs ++ [new_group m].
Proof. unfold group_step. by intros ->. Qed.

(** So does one whose [parentId] is the id of no group produced so far. *)
Lemma group_step_orphan (gs : list MessageGroup) (m : ThreadedMessage) :
  Forall (λ g, ¬ is_parent_of m g) gs → group_step gs m = gs ++ [new_group m].
Proof.
  intros Hnone. unfold group_step.
  rewrite (proj2 (list_find_None (is_parent_of m) gs) Hnone).
  by destruct (truthy _).
Qed.

(** [find] returns the first match: with no parent in [l1], the group just
    after [l1] takes the reply, in place. *)
Lemma group_step_attach (l1 l2 : list MessageGroup) (g : MessageGroup)
    (m : ThreadedMessage) :
  truthy (msg_parentId m) = true →
  is_parent_of m g →
  Forall (λ g', ¬ is_parent_of m g') l1 →
  group_step (l1 ++ g :: l2) m = l1 ++ push_reply m g :: l2.
Proof.
  intros Ht Hg Hl1. unfold group_step. rewrite Ht.
  assert (list_find (is_parent_of m) (l1 ++ g :: l2) = Some (length l1, g))
    as ->.
  { apply list_find_Some. split_and!.
    - by rewrite list_lookup_middle.
    - done.
    - intros j y Hj Hlt. rewrite lookup_app_l in Hj by done.
      eapply Forall_lookup_1 in Hl1; eauto. }
  rewrite <-(Nat.add_0_r (length l1)). by rewrite alter_app_r.
Qed.

(** The two outcomes of a step. *)
Lemma group_step_cases (gs : list MessageGroup) (m : ThreadedMessage) :
  (group_step gs m = gs ++ [new_group m] ∧
   (truthy (msg_parentId m) = false ∨ Forall (λ g, ¬ is_parent_of m g) gs))
  ∨ (∃ l1 g l2, gs = l1 ++ g :: l2 ∧ truthy (msg_parentId m) = true ∧
       is_parent_of m g ∧ Forall (λ g', ¬ is_parent_of m g') l1 ∧
       group_step gs m = l1 ++ push_reply m g :: l2).
Proof.
  destruct (truthy (msg_parentId m)) eqn:Ht.
  - destruct (list_find (is_parent_of m) gs) as [[i g]|] eqn:Hfind.
    + right. apply list_find_Some in Hfind as (Hi & Hg & Hfirst).
      exists (take i gs), g, (drop (S i) gs).
      assert (gs = take i gs ++ g :: drop (S i) gs) as Hsplit
        by by rewrite take_drop_middle.
      assert (Forall (λ g', ¬ is_parent_of m g') (take i gs)) as Hl1.
      { apply Forall_lookup. intros j y Hj.
        apply lookup_take_Some in Hj as [Hj Hlt]. eauto. }
      split_and!; try done.
      rewrite Hsplit at 1. by apply group_step_attach.
    + left. apply list_find_None in Hfind.
      split; [by apply group_step_orphan | by right].
  - left. split; [by apply group_step_main | by left].
Qed.

(** ** Every message is rendered exactly once *)

Lemma rendered_app (gs1 gs2 : list MessageGroup) :
  rendered (gs1 ++ gs2) = rendered gs1 ++ rendered gs2.
Proof. unfold rendered. by rewrite fmap_app, concat_app. Qed.

Lemma rendered_cons (g : MessageGroup) (gs : list MessageGroup) :
  rendered (g :: gs) = grp_message g :: grp_replies g ++ rendered gs.
Proof. done. Qed.

Lemma rendered_group_step (gs : list MessageGroup) (m : ThreadedMessage) :
  rendered (group_step gs m) ≡ₚ rendered gs ++ [m].
Proof.
  destruct (group_step_cases gs m)
    as [[-> _]|(l1 & g & l2 & -> & _ & _ & _ & ->)].
  - rewrite rendered_app. unfold rendered; simpl. done.
  - rewrite !rendered_app, !rendered_cons. simpl.
    rewrite <-!app_assoc. f_equiv. simpl. f_equiv.
    rewrite <-!app_assoc. f_equiv.
    apply Permutation_cons_append.
Qed.

Lemma rendered_foldl (ms : list ThreadedMessage) (gs : list MessageGroup) :
  rendered (foldl group_step gs ms) ≡ₚ rendered gs ++ ms.
Proof.
  revert gs. induction ms as [|m ms IH]; intros gs; simpl.
  - by rewrite app_nil_r.
  - rewrite IH, rendered_group_step. by rewrite <-app_assoc.
Qed.

(** C8: grouping an empty message list produces no group; the reduction is
    a total function, so there is no failing path. *)
Theorem messageGroups_empty :
  messageGroups [] = [] ∧ run group initial_state = ([], initial_state).
Proof. done. Qed.

(** C3: the main messages and replies of the groups, taken together, are a
    permutation of the input list: every message occurrence of the input is
    the main message of exactly one group or one entry of exactly one
    group's replies; none is dropped and none is duplicated. *)
Theorem messageGroups_partition (ms : list ThreadedMessage) :
  rendered (messageGroups ms) ≡ₚ ms
  ∧ (grp_message <$> messageGroups ms)
      ++ concat (grp_replies <$> messageGroups ms) ≡ₚ ms.
Proof.
  assert (rendered (messageGroups ms) ≡ₚ ms) as Hr.
  { unfold messageGroups. by rewrite rendered_foldl. }
  split; [done|]. rewrite <-Hr at 3.
  generalize (messageGroups ms) as gs. clear Hr.
  induction gs as [|g gs IH]; [done|].
  rewrite rendered_cons. simpl. f_equiv.
  rewrite <-IH, !app_assoc. f_equiv; [|done]. apply Permutation_app_comm.
Qed.

(** ** Groups are only appended, and only their replies grow *)

(** What a step does to the group at a given index: it leaves it alone or
    pushes the message onto its replies, the latter only when it is the first
    group whose id is the message's truthy [parentId]. *)
Lemma group_step_lookup (gs : list MessageGroup) (m : ThreadedMessage)
    (k : nat) (g : MessageGroup) :
  gs !! k = Some g →
  group_step gs m !! k = Some g
  ∨ (group_step gs m !! k = Some (push_reply m g)
     ∧ truthy (msg_parentId m) = true ∧ is_parent_of m g
     ∧ ∀ j g', gs !! j = Some g' → j < k → ¬ is_parent_of m g').
Proof.
  intros Hk.
  destruct (group_step_cases gs m)
    as [[-> _]|(l1 & g0 & l2 & -> & Ht & Hg0 & Hl1 & ->)].
  - left. by apply lookup_app_l_Some.
  - destruct (decide (k = length l1)) as [->|Hne].
    + rewrite list_lookup_middle in Hk by done. simplify_eq.
      right. rewrite list_lookup_middle by done. split_and!; try done.
      intros j g' Hj Hlt. rewrite lookup_app_l in Hj by done.
      eapply Forall_lookup_1 in Hl1; eauto.
    + left. rewrite <-Hk.
      destruct (decide (k < length l1)).
      * by rewrite !lookup_app_l.
      * rewrite !lookup_app_r by lia.
        replace (k - length l1) with (S (k - length l1 - 1)) by lia. done.
Qed.

Lemma group_step_lookup_first (gs : list MessageGroup) (m : ThreadedMessage)
    (k : nat) (g : MessageGroup) :
  gs !! k = Some g →
  truthy (msg_parentId m) = true →
  is_parent_of m g →
  (∀ j g', gs !! j = Some g' → j < k → ¬ is_parent_of m g') →
  group_step gs m !! k = Some (push_reply m g).
Proof.
  intros Hk Ht Hg Hfirst.
  rewrite <-(take_drop_middle gs k g Hk).
  assert (length (take k gs) = k) as Hlen.
  { apply lookup_lt_Some in Hk. rewrite length_take. lia. }
  rewrite group_step_attach; try done.
  - by rewrite list_lookup_middle.
  - apply Forall_lookup. intros j y Hj.
    apply lookup_take_Some in Hj as [Hj Hlt]. eauto.
Qed.

Lemma group_step_lookup_other (gs : list MessageGroup) (m : ThreadedMessage)
    (k : nat) (g : MessageGroup) :
  gs !! k = Some g → ¬ is_parent_of m g → group_step gs m !! k = Some g.
Proof.
  intros Hk Hg. by destruct (group_step_lookup gs m k g Hk) as [?|(_&_&?&_)].
Qed.

(** The id and the main message at an index never change. *)
Lemma group_step_lookup_inv (gs : list MessageGroup) (m : ThreadedMessage)
    (j : nat) (g' : MessageGroup) :
  j < length gs → group_step gs m !! j = Some g' →
  ∃ g, gs !! j = Some g ∧ grp_id g' = grp_id g
       ∧ grp_message g' = grp_message g.
Proof.
  intros Hlt Hj. destruct (lookup_lt_is_Some_2 gs j Hlt) as [g Hg].
  exists g. split; [done|].
  destruct (group_step_lookup gs m j g Hg) as [Hs|(Hs & _)];
    rewrite Hs in Hj; by simplify_eq.
Qed.

Lemma foldl_group_step_lookup (ms : list ThreadedMessage)
    (gs : list MessageGroup) (k : nat) (g : MessageGroup) :
  gs !! k = Some g →
  ∃ rs, foldl group_step gs ms !! k
        = Some {| grp_id := grp_id g; grp_message := grp_message g;
                  grp_replies := grp_replies g ++ rs |}.
Proof.
  revert gs g. induction ms as [|m ms IH]; intros gs g Hk; simpl.
  - exists []. rewrite app_nil_r. by destruct g.
  - destruct (group_step_lookup gs m k g Hk) as [Hs|(Hs & _)].
    + by apply IH.
    + destruct (IH _ _ Hs) as [rs Hrs]. exists (m :: rs).
      rewrite Hrs. simpl. by rewrite <-app_assoc.
Qed.

(** The first group carrying a non-empty id collects exactly the later
    messages whose [parentId] is that id, in order. *)
Lemma foldl_group_step_first (ms : list ThreadedMessage)
    (gs : list MessageGroup) (k : nat) (g : MessageGroup) (p : string) :
  p ≠ EmptyString →
  gs !! k = Some g → grp_id g = p →
  (∀ j g', gs !! j = Some g' → j < k → grp_id g' ≠ p) →
  foldl group_step gs ms !! k
  = Some {| grp_id := p; grp_message := grp_message g;
            grp_replies :=
              grp_replies g ++ filter (λ m, msg_parentId m = Some p) ms |}.
Proof.
  intros Hp. revert gs g.
  induction ms as [|m ms IH]; intros gs g Hk Hid Hfirst; simpl.
  - rewrite filter_nil, app_nil_r. rewrite Hk. destruct g; by simplify_eq/=.
  - assert (∀ j g', group_step gs m !! j = Some g' → j < k → grp_id g' ≠ p)
      as Hfirst'.
    { intros j g' Hj Hlt.
      apply group_step_lookup_inv in Hj as (g0 & Hg0 & -> & _).
      - eauto.
      - apply lookup_lt_Some in Hk. lia. }
    destruct (decide (msg_parentId m = Some p)) as [Hm|Hm].
    + rewrite filter_cons_True by done.
      rewrite (IH (group_step gs m) (push_reply m g)); try done.
      * simpl. by rewrite <-app_assoc.
      * apply group_step_lookup_first; try done.
        -- rewrite Hm. by apply truthy_Some.
        -- unfold is_parent_of. by rewrite Hm, Hid.
        -- intros j g' Hj Hlt. unfold is_parent_of. rewrite Hm.
           intros [= Heq]. by eapply Hfirst.
    + rewrite filter_cons_False by done.
      apply IH; try done.
      apply group_step_lookup_other; [done|].
      unfold is_parent_of. rewrite Hid. congruence.
Qed.

(** A group preceded by another group with the same id is never found, so
    it never takes a reply. *)
Lemma foldl_group_step_shadowed (ms : list ThreadedMessage)
    (gs : list MessageGroup) (j k : nat) (g0 g : MessageGroup) :
  gs !! j = Some g0 → gs !! k = Some g → j < k → grp_id g0 = grp_id g →
  foldl group_step gs ms !! k = Some g.
Proof.
  revert gs g0. induction ms as [|m ms IH]; intros gs g0 Hj Hk Hlt Hid; simpl.
  - done.
  - destruct (group_step_lookup gs m j g0 Hj) as [Hs|(Hs & _)].
    all: eapply (IH _ _ Hs); try done.
    all: destruct (group_step_lookup gs m k g Hk)
      as [?|(_ & _ & Hpar & Hfirst)]; [done|].
    all: exfalso; eapply (Hfirst j g0); try done.
    all: unfold is_parent_of in *; by rewrite Hid.
Qed.

(** ** The example scenario *)

Example scenario_groups :
  (λ g, (grp_id g, msg_id (grp_message g), msg_id <$> grp_replies g))
    <$> messageGroups scenario
  = [("1", "1", ["3"]); ("2", "2", [])].
Proof. reflexivity. Qed.

(** ** A message with an unresolved parent starts a group *)

Lemma messageGroups_snoc_orphan (pre : list ThreadedMessage)
    (m : ThreadedMessage) :
  Forall (λ g, msg_parentId m ≠ Some (grp_id g)) (messageGroups pre) →
  messageGroups (pre ++ [m]) = messageGroups pre ++ [new_group m].
Proof.
  intros Hnone. rewrite messageGroups_snoc. apply group_step_orphan.
  eapply List.Forall_impl; [|exact Hnone]. unfold is_parent_of.
  intros g Hg Heq. by apply Hg.
Qed.

(** C2: a message whose [parentId] is the id of no group produced from the
    messages before it starts its own group, appended to the groups produced
    so far; that group keeps its position, id and main message whatever
    follows.  The reduction is total: nothing is raised. *)
Theorem unmatched_parent_starts_group
    (pre post : list ThreadedMessage) (m : ThreadedMessage) :
  Forall (λ g, msg_parentId m ≠ Some (grp_id g)) (messageGroups pre) →
  messageGroups (pre ++ [m]) = messageGroups pre ++ [new_group m]
  ∧ ∃ rs, messageGroups (pre ++ m :: post) !! length (messageGroups pre)
          = Some {| grp_id := msg_id m; grp_message := m; grp_replies := rs |}.
Proof.
  intros Hnone.
  pose proof (messageGroups_snoc_orphan pre m Hnone) as Hm.
  split; [done|].
  rewrite (cons_middle m pre post), app_assoc, messageGroups_app, Hm.
  destruct (foldl_group_step_lookup post
              (messageGroups pre ++ [new_group m])
              (length (messageGroups pre)) (new_group m)) as [rs Hrs].
  - by rewrite list_lookup_middle.
  - exists rs. by rewrite Hrs.
Qed.

Lemma unmatched_parent_starts_group_witness :
  messageGroups ([sample "1" None] ++ [sample "3" (Some "9")])
  = messageGroups [sample "1" None] ++ [new_group (sample "3" (Some "9"))]
  ∧ ∃ rs, messageGroups ([sample "1" None] ++ sample "3" (Some "9")
                           :: [sample "4" (Some "3")])
          !! length (messageGroups [sample "1" None])
          = Some {| grp_id := msg_id (sample "3" (Some "9"));
                    grp_message := sample "3" (Some "9");
                    grp_replies := rs |}.
Proof.
  apply (unmatched_parent_starts_group
           [sample "1" None] [sample "4" (Some "3")] (sample "3" (Some "9"))).
  vm_compute. repeat constructor. discriminate.
Defined.

(** ** Replies to a promoted message *)

(** The group started by a main or promoted message [r] collects exactly the
    later messages whose [parentId] is its id, provided that id is not empty
    and no earlier group has it. *)
Lemma started_group_replies (pre post : list ThreadedMessage)
    (r : ThreadedMessage) :
  messageGroups (pre ++ [r]) = messageGroups pre ++ [new_group r] →
  msg_id r ≠ EmptyString →
  Forall (λ g, grp_id g ≠ msg_id r) (messageGroups pre) →
  messageGroups (pre ++ r :: post) !! length (messageGroups pre)
  = Some {| grp_id := msg_id r; grp_message := r;
            grp_replies := filter (λ m, msg_parentId m = Some (msg_id r)) post |}.
Proof.
  intros Hr Hid Hfresh.
  rewrite (cons_middle r pre post), app_assoc, messageGroups_app, Hr.
  rewrite (foldl_group_step_first post _ _ (new_group r) (msg_id r));
    try done.
  - by rewrite list_lookup_middle.
  - intros j g' Hj Hlt. rewrite lookup_app_l in Hj by done.
    eapply Forall_lookup_1 in Hfresh; eauto.
Qed.

(** C9, as stated, fails on the code: a promoted message whose id is already
    the id of an earlier group loses its replies to that group, and one whose
    id is the empty string has no replies at all (an empty [parentId] is
    falsy). *)
Lemma promoted_replies_counterexample :
  (unresolved [sample "x" None] (sample "x" (Some "q"))
   ∧ ¬ collects_later_replies [sample "x" None] (sample "x" (Some "q"))
                              [sample "z" (Some "x")])
  ∧ (unresolved [] (sample EmptyString (Some "q"))
     ∧ ¬ collects_later_replies [] (sample EmptyString (Some "q"))
                                [sample "z" (Some EmptyString)]).
Proof.
  split; (split; [split; [by eexists | vm_compute; repeat constructor; discriminate]|]).
  - intros H.
    destruct (H (sample "z" (Some "x"))) as (g & Hg & _ & Hin);
      [by apply list_elem_of_singleton | done |].
    vm_compute in Hg. simplify_eq. by apply elem_of_nil in Hin.
  - intros H.
    destruct (H (sample "z" (Some EmptyString))) as (g & Hg & _ & Hin);
      [by apply list_elem_of_singleton | done |].
    vm_compute in Hg. simplify_eq. by apply elem_of_nil in Hin.
Qed.

(** C9 (amended): a message [r] promoted to main message by the orphan rule
    takes replies like any other main message, provided its id is not empty
    and no group produced before it has the same id: its group then holds
    exactly the later messages whose [parentId] is its id, in order. *)
Theorem promoted_message_takes_replies (pre post : list ThreadedMessage)
    (r : ThreadedMessage) :
  unresolved pre r →
  msg_id r ≠ EmptyString →
  Forall (λ g, grp_id g ≠ msg_id r) (messageGroups pre) →
  messageGroups (pre ++ r :: post) !! length (messageGroups pre)
  = Some {| grp_id := msg_id r; grp_message := r;
            grp_replies := filter (λ m, msg_parentId m = Some (msg_id r)) post |}
  ∧ collects_later_replies pre r post.
Proof.
  intros [_ Hun] Hid Hfresh.
  pose proof (messageGroups_snoc_orphan pre r Hun) as Hr.
  pose proof (started_group_replies pre post r Hr Hid Hfresh) as Hg.
  split; [done|].
  intros m Hm Hpar. eexists. split; [exact Hg|]. split; [done|].
  simpl. by apply list_elem_of_filter.
Qed.

Lemma promoted_message_takes_replies_witness :
  messageGroups ([sample "1" None] ++ sample "3" (Some "9")
                   :: [sample "4" (Some "3"); sample "5" None;
                       sample "6" (Some "3")])
    !! length (messageGroups [sample "1" None])
  = Some {| grp_id := "3"; grp_message := sample "3" (Some "9");
            grp_replies := [sample "4" (Some "3"); sample "6" (Some "3")] |}
  ∧ collects_later_replies [sample "1" None] (sample "3" (Some "9"))
      [sample "4" (Some "3"); sample "5" None; sample "6" (Some "3")].
Proof.
  apply (promoted_message_takes_replies [sample "1" None]
           [sample "4" (Some "3"); sample "5" None; sample "6" (Some "3")]
           (sample "3" (Some "9"))).
  - split; [by eexists|]. vm_compute. repeat constructor. discriminate.
  - discriminate.
  - vm_compute. repeat constructor. discriminate.
Defined.

(** ** Main messages sharing an id *)

(** C10, as stated, fails on the code: when the shared id is the empty
    string the later messages with that [parentId] start groups of their own,
    and when a promoted message with the same id comes first they go to its
    group instead of the earliest main message's. *)
Lemma shared_id_counterexample :
  (shares_main_id [] (sample EmptyString None) (sample EmptyString None)
   ∧ ¬ first_match_resolution [] (sample EmptyString None) []
         (sample EmptyString None) [sample "z" (Some EmptyString)])
  ∧ (shares_main_id [sample "x" (Some "q")] (sample "x" None)
       (sample "x" None)
     ∧ ¬ first_match_resolution [sample "x" (Some "q")] (sample "x" None) []
           (sample "x" None) [sample "z" (Some "x")]).
Proof.
  split; (split; [by repeat constructor|]);
    intros (rs1 & rs2 & _ & Hk1 & _ & Hin).
  - destruct (Hin (sample "z" (Some EmptyString))) as [Hin1 _];
      [simpl; repeat constructor | done |].
    vm_compute in Hk1. simplify_eq. by apply elem_of_nil in Hin1.
  - destruct (Hin (sample "z" (Some "x"))) as [Hin1 _];
      [simpl; repeat constructor | done |].
    vm_compute in Hk1. simplify_eq. by apply elem_of_nil in Hin1.
Qed.

(** Whatever follows, the group started by [r] stays at its index with its
    id and its main message. *)
Lemma started_group_lookup (pre post : list ThreadedMessage)
    (r : ThreadedMessage) :
  messageGroups (pre ++ [r]) = messageGroups pre ++ [new_group r] →
  ∃ rs, messageGroups (pre ++ r :: post) !! length (messageGroups pre)
        = Some {| grp_id := msg_id r; grp_message := r; grp_replies := rs |}.
Proof.
  intros Hr.
  rewrite (cons_middle r pre post), app_assoc, messageGroups_app, Hr.
  destruct (foldl_group_step_lookup post
              (messageGroups pre ++ [new_group r])
              (length (messageGroups pre)) (new_group r)) as [rs Hrs].
  - by rewrite list_lookup_middle.
  - exists rs. by rewrite Hrs.
Qed.

(** C10 (amended): when two main messages [a1] and [a2] share an id, [a1]
    being the earliest main message with that id, each of them has a group
    of its own, and the group of [a2] never gets a reply.  When moreover that
    id is not empty and no group produced before [a1] has it, the group of
    [a1] holds exactly the later messages whose [parentId] is that id: every
    such message is attached to the group of [a1] only. *)
Theorem shared_id_first_match (l0 l1 l2 : list ThreadedMessage)
    (a1 a2 : ThreadedMessage) :
  shares_main_id l0 a1 a2 →
  length (messageGroups l0) < length (messageGroups (l0 ++ a1 :: l1))
  ∧ (∃ rs1,
       messageGroups (l0 ++ a1 :: l1 ++ a2 :: l2) !! length (messageGroups l0)
       = Some {| grp_id := msg_id a1; grp_message := a1;
                 grp_replies := rs1 |})
  ∧ messageGroups (l0 ++ a1 :: l1 ++ a2 :: l2)
      !! length (messageGroups (l0 ++ a1 :: l1))
    = Some (new_group a2)
  ∧ (msg_id a1 ≠ EmptyString →
     Forall (λ g, grp_id g ≠ msg_id a1) (messageGroups l0) →
     messageGroups (l0 ++ a1 :: l1 ++ a2 :: l2) !! length (messageGroups l0)
     = Some {| grp_id := msg_id a1; grp_message := a1;
               grp_replies :=
                 filter (λ m, msg_parentId m = Some (msg_id a1))
                        (l1 ++ a2 :: l2) |}
     ∧ first_match_resolution l0 a1 l1 a2 l2).
Proof.
  intros (Hp1 & Hp2 & Hid & _).
  assert (messageGroups (l0 ++ [a1]) = messageGroups l0 ++ [new_group a1])
    as Ha1.
  { rewrite messageGroups_snoc. apply group_step_main. by rewrite Hp1. }
  destruct (started_group_lookup l0 (l1 ++ a2 :: l2) a1 Ha1) as [rs1 Hk1].
  destruct (started_group_lookup l0 l1 a1 Ha1) as [rs1' Hk1'].
  assert (length (messageGroups l0) < length (messageGroups (l0 ++ a1 :: l1)))
    as Hlt by by eapply lookup_lt_Some.
  assert (messageGroups (l0 ++ a1 :: l1 ++ a2 :: l2)
            !! length (messageGroups (l0 ++ a1 :: l1))
          = Some (new_group a2)) as Hk2.
  { replace (l0 ++ a1 :: l1 ++ a2 :: l2)
      with (((l0 ++ a1 :: l1) ++ [a2]) ++ l2) by by rewrite <-!app_assoc.
    rewrite (messageGroups_app (_ ++ [a2]) l2), messageGroups_snoc.
    rewrite (group_step_main _ a2) by by rewrite Hp2.
    eapply (foldl_group_step_shadowed l2 _ (length (messageGroups l0))).
    - apply lookup_app_l_Some. exact Hk1'.
    - by rewrite list_lookup_middle.
    - done.
    - simpl. by rewrite Hid. }
  split_and!; [done|by exists rs1|done|].
  intros Hne Hfresh.
  pose proof (started_group_replies l0 (l1 ++ a2 :: l2) a1 Ha1 Hne Hfresh)
    as Hfirst.
  split; [done|].
  unfold first_match_resolution.
  eexists _, []. split_and!; [done|exact Hfirst| |].
  - rewrite Hk2. unfold new_group. by rewrite Hid.
  - intros m Hm Hpar.
    split; [by apply list_elem_of_filter | apply not_elem_of_nil].
Qed.

Lemma shared_id_first_match_witness :
  first_match_resolution [sample "0" None] (sample "7" None)
    [sample "8" (Some "7")] (sample "7" None) [sample "9" (Some "7")].
Proof.
  destruct (shared_id_first_match [sample "0" None] [sample "8" (Some "7")]
              [sample "9" (Some "7")] (sample "7" None) (sample "7" None))
    as (_ & _ & _ & Hfirst).
  - repeat constructor. discriminate.
  - apply Hfirst.
    + discriminate.
    + vm_compute. repeat constructor. discriminate.
Defined.

(** ** A reply changes only its parent's group *)

Lemma messageGroups_two_mains (A1 A2 : ThreadedMessage) :
  msg_parentId A1 = None → msg_parentId A2 = None →
  messageGroups [A1; A2] = [new_group A1; new_group A2].
Proof.
  intros H1 H2. change [A1; A2] with (([] ++ [A1]) ++ [A2]).
  rewrite !messageGroups_snoc. change (messageGroups []) with (@nil MessageGroup).
  rewrite (group_step_main [] A1) by by rewrite H1.
  by rewrite group_step_main by by rewrite H2.
Qed.

(** C7, as stated, fails on the code when the id of [A1] is the empty
    string: the reply's [parentId] is then falsy and the reply starts a third
    group. *)
Lemma reply_frame_counterexample :
  msg_parentId (sample EmptyString None) = None
  ∧ msg_parentId (sample "2" None) = None
  ∧ msg_parentId (sample "3" (Some EmptyString))
    = Some (msg_id (sample EmptyString None))
  ∧ (run (append (sample "3" (Some EmptyString));; group)
         {| messages := [sample EmptyString None; sample "2" None];
            isLoading := false; replyingTo := None |}).1
    = [new_group (sample EmptyString None); new_group (sample "2" None);
       new_group (sample "3" (Some EmptyString))]
  ∧ (run (append (sample "3" (Some EmptyString));; group)
         {| messages := [sample EmptyString None; sample "2" None];
            isLoading := false; replyingTo := None |}).1
    ≠ [ {| grp_id := msg_id (sample EmptyString None);
           grp_message := sample EmptyString None;
           grp_replies := [sample "3" (Some EmptyString)] |};
        new_group (sample "2" None) ].
Proof. by split_and!. Qed.

(** C7 (amended): in a store holding, in order, the main messages [A1] and
    [A2], where the id of [A1] is not the empty string, appending a reply
    [R1] whose [parentId] is the id of [A1] gives the groups [A1] with
    replies [R1] and [A2] with no reply: the group of [A2] is at the same
    position and has the same contents as before. *)
Theorem reply_changes_only_its_group (A1 A2 R1 : ThreadedMessage)
    (st : ChatState) :
  messages st = [A1; A2] →
  msg_parentId A1 = None → msg_parentId A2 = None →
  msg_parentId R1 = Some (msg_id A1) →
  msg_id A1 ≠ EmptyString →
  (run group st).1 = [new_group A1; new_group A2]
  ∧ (run (append R1;; group) st).1
    = [ {| grp_id := msg_id A1; grp_message := A1; grp_replies := [R1] |};
        new_group A2 ].
Proof.
  intros Hst H1 H2 HR Hne.
  pose proof (messageGroups_two_mains A1 A2 H1 H2) as Hgs.
  unfold run, group, append, setMessages, mbind, Hook_bind. simpl.
  rewrite Hst. split; [done|].
  rewrite messageGroups_snoc, Hgs.
  apply (group_step_attach [] [new_group A2] (new_group A1) R1).
  - rewrite HR. by apply truthy_Some.
  - by unfold is_parent_of.
  - constructor.
Qed.

Lemma reply_changes_only_its_group_witness :
  (run group {| messages := [sample "1" None; sample "2" None];
                isLoading := false; replyingTo := None |}).1
  = [new_group (sample "1" None); new_group (sample "2" None)]
  ∧ (run (append (sample "3" (Some "1"));; group)
         {| messages := [sample "1" None; sample "2" None];
            isLoading := false; replyingTo := None |}).1
    = [ {| grp_id := "1"; grp_message := sample "1" None;
           grp_replies := [sample "3" (Some "1")] |};
        new_group (sample "2" None) ].
Proof.
  by apply (reply_changes_only_its_group (sample "1" None) (sample "2" None)
              (sample "3" (Some "1"))).
Defined.

(** ** Well-threaded lists *)

Lemma filter_none {A} (P : A → Prop) `{∀ x, Decision (P x)} (l : list A) :
  Forall (λ x, ¬ P x) l → filter P l = [].
Proof.
  induction 1 as [|x l Hx _ IH]; [done|].
  by rewrite filter_cons_False.
Qed.

Lemma thread_of_snoc (ms : list ThreadedMessage) (m a : ThreadedMessage) :
  thread_of (ms ++ [m]) a
  = if decide (msg_parentId m = Some (msg_id a))
    then push_reply m (thread_of ms a) else thread_of ms a.
Proof.
  unfold thread_of, push_reply. rewrite list.filter_app. simpl.
  case_decide.
  - by rewrite filter_cons_True, filter_nil.
  - by rewrite filter_cons_False, filter_nil, app_nil_r.
Qed.

Lemma distinct_ids_snoc (ms : list ThreadedMessage) (m : ThreadedMessage) :
  distinct_ids (ms ++ [m]) →
  distinct_ids ms ∧ Forall (λ a, msg_id a ≠ msg_id m) ms.
Proof.
  unfold distinct_ids. rewrite fmap_app. intros (Hms & Hnot & _)%list.NoDup_app.
  split; [done|]. apply list.Forall_forall. intros a Ha Heq.
  apply (Hnot (msg_id a)).
  - by apply list_elem_of_fmap_2.
  - rewrite Heq. simpl. apply list_elem_of_singleton. done.
Qed.

Lemma replies_follow_mains_snoc (ms : list ThreadedMessage)
    (m : ThreadedMessage) :
  replies_follow_mains (ms ++ [m]) →
  replies_follow_mains ms
  ∧ ∀ p, msg_parentId m = Some p →
      ∃ a, a ∈ ms ∧ msg_id a = p ∧ msg_parentId a = None.
Proof.
  intros Hwf. split.
  - intros i m' p Hi Hp.
    destruct (Hwf i m' p) as (j & a & Hlt & Hj & Ha); [|done|].
    { by apply lookup_app_l_Some. }
    exists j, a. split; [done|]. split; [|done].
    apply lookup_lt_Some in Hi. by rewrite lookup_app_l in Hj by lia.
  - intros p Hp.
    destruct (Hwf (length ms) m p) as (j & a & Hlt & Hj & Ha); [|done|].
    { by rewrite list_lookup_middle. }
    exists a. split; [|done].
    rewrite lookup_app_l in Hj by done. by eapply list_elem_of_lookup_2.
Qed.

(** In a list with distinct ids, the groups of the main messages other than
    [a] do not carry the id of [a]. *)
Lemma distinct_ids_split (ms A1 A2 : list ThreadedMessage)
    (a : ThreadedMessage) :
  distinct_ids ms →
  filter (λ a, msg_parentId a = None) ms = A1 ++ a :: A2 →
  Forall (λ a', msg_id a' ≠ msg_id a) (A1 ++ A2).
Proof.
  intros Hnd Hsplit.
  assert (NoDup (msg_id <$> (A1 ++ a :: A2))) as Hnd'.
  { rewrite <-Hsplit. eapply sublist_NoDup; [exact Hnd|].
    apply fmap_sublist, sublist_filter. }
  rewrite fmap_app, fmap_cons in Hnd'.
  apply list.NoDup_app in Hnd' as (_ & Hl & (Hr & _)%list.NoDup_cons).
  apply Forall_app. split; apply list.Forall_forall; intros a' Ha' Heq.
  - apply (Hl (msg_id a')); [by apply list_elem_of_fmap_2|].
    rewrite Heq. apply list_elem_of_here.
  - apply Hr. rewrite <-Heq. by apply list_elem_of_fmap_2.
Qed.

(** C1, as stated, fails on the code when a reply bears the empty string as
    [parentId] (the id of an earlier main message): the empty string is
    falsy, and the reply starts a group of its own. *)
Lemma well_threaded_counterexample :
  distinct_ids [sample EmptyString None; sample "1" (Some EmptyString)]
  ∧ replies_follow_mains
      [sample EmptyString None; sample "1" (Some EmptyString)]
  ∧ messageGroups [sample EmptyString None; sample "1" (Some EmptyString)]
    = [new_group (sample EmptyString None);
       new_group (sample "1" (Some EmptyString))]
  ∧ expected_groups [sample EmptyString None; sample "1" (Some EmptyString)]
    = [ {| grp_id := EmptyString; grp_message := sample EmptyString None;
           grp_replies := [sample "1" (Some EmptyString)] |} ]
  ∧ messageGroups [sample EmptyString None; sample "1" (Some EmptyString)]
    ≠ expected_groups [sample EmptyString None; sample "1" (Some EmptyString)].
Proof.
  split_and!; try done.
  - unfold distinct_ids. apply (bool_decide_unpack _). by vm_compute.
  - intros [|[|i]] m p Hi Hp; simplify_eq/=.
    exists 0, (sample EmptyString None). split_and!; [lia|done..].
Qed.

(** C1 (amended): for a list of messages with pairwise-distinct ids in which
    every message bearing a [parentId] bears a non-empty one, the id of an
    earlier message without [parentId], the groups are exactly one per
    message without [parentId], in the order of those messages, and the
    replies of each are exactly the messages whose [parentId] is its main
    message's id, in order. *)
Theorem well_threaded_groups (ms : list ThreadedMessage) :
  distinct_ids ms →
  replies_follow_mains ms →
  Forall (λ m, msg_parentId m ≠ Some EmptyString) ms →
  messageGroups ms = expected_groups ms.
Proof.
  induction ms as [|m ms IH] using rev_ind; intros Hnd Hwf Hne; [done|].
  apply distinct_ids_snoc in Hnd as [Hnd Hfresh].
  apply replies_follow_mains_snoc in Hwf as [Hwf Hm].
  apply list.Forall_app in Hne as [Hne Hm_ne].
  apply Forall_inv in Hm_ne.
  rewrite messageGroups_snoc, IH by done.
  unfold expected_groups at 2. rewrite list.filter_app.
  destruct (msg_parentId m) as [p|] eqn:Hp.
  - rewrite (filter_cons_False _ m) by by rewrite Hp.
    rewrite filter_nil, app_nil_r.
    destruct (Hm p eq_refl) as (a & Ha & Hid & Hmain).
    assert (a ∈ filter (λ a, msg_parentId a = None) ms) as Hin
      by by apply list_elem_of_filter.
    apply list_elem_of_split in Hin as (A1 & A2 & Hsplit).
    pose proof (distinct_ids_split ms A1 A2 a Hnd Hsplit)
      as [HA1 HA2]%Forall_app.
    unfold expected_groups. rewrite Hsplit, !fmap_app, !fmap_cons.
    rewrite group_step_attach.
    + f_equal; [|f_equal].
      * apply Forall_fmap_ext. eapply List.Forall_impl; [|exact HA1].
        intros a' Ha'. simpl in Ha'.
        rewrite thread_of_snoc, decide_False; [done|].
        rewrite Hp. congruence.
      * rewrite thread_of_snoc, decide_True; [done|]. by rewrite Hp, Hid.
      * apply Forall_fmap_ext. eapply List.Forall_impl; [|exact HA2].
        intros a' Ha'. simpl in Ha'.
        rewrite thread_of_snoc, decide_False; [done|].
        rewrite Hp. congruence.
    + rewrite Hp. apply truthy_Some. congruence.
    + unfold is_parent_of. simpl. by rewrite Hp, Hid.
    + apply Forall_fmap. eapply List.Forall_impl; [|exact HA1].
      intros a' Ha'. unfold is_parent_of. simpl in *. rewrite Hp. congruence.
  - rewrite (filter_cons_True _ m) by by rewrite Hp.
    rewrite filter_nil, fmap_app. simpl.
    rewrite group_step_main by by rewrite Hp.
    f_equal.
    + apply list_fmap_ext. intros i a' _.
      rewrite thread_of_snoc, decide_False; [done|]. by rewrite Hp.
    + f_equal. unfold thread_of, new_group. f_equal.
      rewrite list.filter_app, (filter_cons_False _ m), filter_nil, app_nil_r
        by by rewrite Hp.
      symmetry. apply filter_none. apply Forall_lookup. intros i r Hi Hr.
      destruct (Hwf i r (msg_id m) Hi Hr) as (j & a & _ & Hj & Hida & _).
      eapply Forall_lookup_1 in Hfresh; [|exact Hj]. done.
Qed.

Lemma well_threaded_groups_witness :
  messageGroups scenario = expected_groups scenario.
Proof.
  apply (well_threaded_groups scenario).
  - unfold distinct_ids. apply (bool_decide_unpack _). by vm_compute.
  - intros [|[|[|i]]] m p Hi Hp; simplify_eq/=.
    eexists 0, _. split_and!; [lia|reflexivity|done..].
  - repeat constructor; discriminate.
Defined.

(** ** Grouping is one level deep *)

Lemma group_step_ok (gs : list MessageGroup) (m : ThreadedMessage) :
  Forall group_ok gs → Forall group_ok (group_step gs m).
Proof.
  intros Hgs.
  destruct (group_step_cases gs m)
    as [[-> _]|(l1 & g & l2 & -> & _ & Hg & _ & ->)].
  - apply list.Forall_app. split; [done|].
    repeat constructor.
  - apply list.Forall_app in Hgs as [Hl1 Hgl2].
    apply list.Forall_cons in Hgl2 as [[Hid Hrs] Hl2].
    apply list.Forall_app. split; [done|]. constructor; [|done].
    split; [done|]. simpl. apply list.Forall_app. split; [done|].
    by repeat constructor.
Qed.

Lemma messageGroups_ok (ms : list ThreadedMessage) :
  Forall group_ok (messageGroups ms).
Proof.
  induction ms as [|m ms IH] using rev_ind; [constructor|].
  rewrite messageGroups_snoc. by apply group_step_ok.
Qed.

Lemma elem_of_rendered (gs : list MessageGroup) (g : MessageGroup) :
  g ∈ gs →
  grp_message g ∈ rendered gs ∧ ∀ r, r ∈ grp_replies g → r ∈ rendered gs.
Proof.
  intros Hg. apply list_elem_of_split in Hg as (l1 & l2 & ->).
  rewrite rendered_app, rendered_cons. split.
  - apply elem_of_app. right. apply list_elem_of_here.
  - intros r Hr. apply elem_of_app. right.
    apply list_elem_of_further, elem_of_app. by left.
Qed.

(** With distinct ids among what is rendered, no main message has the id of
    a reply. *)
Lemma rendered_main_not_reply (gs : list MessageGroup)
    (g g' : MessageGroup) (r : ThreadedMessage) :
  NoDup (msg_id <$> rendered gs) →
  g ∈ gs → g' ∈ gs → r ∈ grp_replies g →
  msg_id (grp_message g') ≠ msg_id r.
Proof.
  induction gs as [|g0 gs IH]; intros Hnd Hg Hg' Hr.
  { by apply elem_of_nil in Hg. }
  rewrite rendered_cons, fmap_cons, fmap_app in Hnd.
  apply list.NoDup_cons in Hnd as [Hmain Hnd].
  apply list.NoDup_app in Hnd as (_ & Hdisj & Hrest).
  apply elem_of_cons in Hg as [->|Hg];
    apply elem_of_cons in Hg' as [->|Hg'].
  - intros Heq. apply Hmain. rewrite Heq.
    apply elem_of_app. left. by apply list_elem_of_fmap_2.
  - intros Heq. apply (Hdisj (msg_id r)).
    + by apply list_elem_of_fmap_2.
    + rewrite <-Heq. apply list_elem_of_fmap_2.
      by apply elem_of_rendered.
  - intros Heq. apply Hmain. rewrite Heq.
    apply elem_of_app. right. apply list_elem_of_fmap_2.
    apply (elem_of_rendered gs g Hg). done.
  - by apply IH.
Qed.

Lemma distinct_ids_rendered (ms : list ThreadedMessage) :
  distinct_ids ms → NoDup (msg_id <$> rendered (messageGroups ms)).
Proof.
  unfold distinct_ids, messageGroups. intros Hnd.
  by rewrite rendered_foldl.
Qed.

(** C5, as stated, fails on the code when ids repeat: a message whose
    [parentId] is the id of a reply is attached to an earlier group that has
    the same id as that reply, and does not start a group. *)
Lemma one_level_deep_counterexample :
  ¬ reply_to_reply_starts_group
      [sample "x" None; sample "y" None; sample "x" (Some "y")]
      (sample "z" (Some "x")) []
  ∧ messageGroups ([sample "x" None; sample "y" None; sample "x" (Some "y")]
                     ++ [sample "z" (Some "x")])
    = [ {| grp_id := "x"; grp_message := sample "x" None;
           grp_replies := [sample "z" (Some "x")] |};
        {| grp_id := "y"; grp_message := sample "y" None;
           grp_replies := [sample "x" (Some "y")] |} ].
Proof.
  split; [|done]. intros H.
  specialize (H {| grp_id := "y"; grp_message := sample "y" None;
                   grp_replies := [sample "x" (Some "y")] |}
                (sample "x" (Some "y"))).
  discriminate H; [|by repeat constructor..].
  vm_compute. apply list_elem_of_further, list_elem_of_here.
Qed.

(** C5 (amended): in every group, each reply bears the id of the group's
    main message as [parentId]; and when the ids of the list are pairwise
    distinct, no message placed as a reply has the id of a main message (so
    none has replies of its own), and a message whose [parentId] is the id of
    a message placed as a reply starts a group of its own. *)
Theorem grouping_one_level_deep :
  (∀ ms g r, g ∈ messageGroups ms → r ∈ grp_replies g →
     msg_parentId r = Some (msg_id (grp_message g)))
  ∧ (∀ pre m post, distinct_ids (pre ++ m :: post) →
       (∀ g g' r, g ∈ messageGroups (pre ++ m :: post) →
          g' ∈ messageGroups (pre ++ m :: post) → r ∈ grp_replies g →
          msg_id (grp_message g') ≠ msg_id r)
       ∧ reply_to_reply_starts_group pre m post).
Proof.
  split.
  - intros ms g r Hg Hr.
    pose proof (messageGroups_ok ms) as Hok.
    rewrite list.Forall_forall in Hok. destruct (Hok g Hg) as [Hid Hrs].
    rewrite list.Forall_forall in Hrs. rewrite <-Hid. by apply Hrs.
  - intros pre m post Hnd.
    assert (∀ g g' r, g ∈ messageGroups (pre ++ m :: post) →
              g' ∈ messageGroups (pre ++ m :: post) → r ∈ grp_replies g →
              msg_id (grp_message g') ≠ msg_id r) as Hdisj.
    { intros g g' r. apply rendered_main_not_reply.
      by apply distinct_ids_rendered. }
    split; [done|].
    intros g r Hg Hr Hpar. apply messageGroups_snoc_orphan.
    apply Forall_lookup. intros k g0 Hk Hpar0.
    destruct (foldl_group_step_lookup (m :: post) _ k g0 Hk) as [rs Hfin].
    rewrite <-messageGroups_app in Hfin.
    pose proof (messageGroups_ok pre) as Hok.
    eapply Forall_lookup_1 in Hok as [Hid0 _]; [|exact Hk].
    apply list_elem_of_lookup_2 in Hfin.
    apply (Hdisj g _ r Hg Hfin Hr). simpl.
    rewrite <-Hid0. congruence.
Qed.

Lemma grouping_one_level_deep_witness :
  msg_parentId (sample "3" (Some "1")) = Some (msg_id (sample "1" None))
  ∧ reply_to_reply_starts_group
      [sample "1" None; sample "3" (Some "1")] (sample "4" (Some "3")) [].
Proof.
  destruct grouping_one_level_deep as [Hpar Hdeep]. split.
  - apply (Hpar [sample "1" None; sample "3" (Some "1")]
             {| grp_id := "1"; grp_message := sample "1" None;
                grp_replies := [sample "3" (Some "1")] |}).
    + vm_compute. apply list_elem_of_here.
    + apply list_elem_of_here.
  - apply Hdeep. unfold distinct_ids.
    apply (bool_decide_unpack _). by vm_compute.
Defined.

(** ** Appending *)

(** Two messages sent within the same millisecond get the same id, and both
    are stored. *)
Example same_millisecond_duplicate_ids :
  msg_id <$> messages
    (run (handleSendMessage_begin 1712345678901 1712345678901 "first";;
          handleSendMessage_begin 1712345678901 1712345678902 "second")
         initial_state).2
  = ["1712345678901"; "1712345678901"].
Proof. by vm_compute. Qed.

(** A reply is sent to the message chosen by [handleReply]; the choice is
    then forgotten. *)
Example reply_takes_parent :
  (λ st, (msg_parentId <$> messages st, replyingTo st))
    (run (handleSendMessage_begin 1 1 "question";;
          handleReply "1";;
          handleSendMessage_begin 2 2 "tell me more")
         initial_state).2
  = ([None; Some "1"], None).
Proof. by vm_compute. Qed.

(** C4, as stated, fails on the code: appending a message whose id is
    already present does not fail, the message is stored a second time. *)
Lemma append_duplicate_counterexample :
  msg_id (sample "5" None)
    ∈ msg_id <$> messages {| messages := [sample "5" None];
                             isLoading := false; replyingTo := None |}
  ∧ append_checked (sample "5" None)
      {| messages := [sample "5" None]; isLoading := false;
         replyingTo := None |}
    = DuplicateIdError
  ∧ append_outcome (sample "5" None)
      {| messages := [sample "5" None]; isLoading := false;
         replyingTo := None |}
    = Appended {| messages := [sample "5" None; sample "5" None];
                  isLoading := false; replyingTo := None |}
  ∧ append_outcome (sample "5" None)
      {| messages := [sample "5" None]; isLoading := false;
         replyingTo := None |}
    ≠ DuplicateIdError.
Proof. split_and!; [apply list_elem_of_here|done..]. Qed.

(** C4 (amended): [append] never fails.  Whether or not the id is already
    present, it puts the message at the end of the message list, leaves the
    rest of the state alone and returns nothing; when the id is not present
    this is what the checked append of the specification does. *)
Theorem append_never_fails (message : ThreadedMessage) (st : ChatState) :
  run (append message) st
  = (tt, {| messages := messages st ++ [message];
            isLoading := isLoading st; replyingTo := replyingTo st |})
  ∧ append_outcome message st ≠ DuplicateIdError
  ∧ (msg_id message ∉ msg_id <$> messages st →
     append_checked message st = append_outcome message st).
Proof.
  split_and!; [done..|].
  intros Hfresh. unfold append_checked. by rewrite decide_False.
Qed.

Lemma append_never_fails_witness :
  append_checked (sample "6" None)
    {| messages := [sample "5" None]; isLoading := false;
       replyingTo := None |}
  = append_outcome (sample "6" None)
      {| messages := [sample "5" None]; isLoading := false;
         replyingTo := None |}.
Proof.
  apply (append_never_fails (sample "6" None)).
  by intros ?%list_elem_of_singleton.
Defined.

(** ** Rendering twice *)

Lemma group_run (st : ChatState) :
  run group st = (messageGroups (messages st), st).
Proof. done. Qed.

(** C6: rendering the groups reads the message list and leaves the state of
    the container as it is, so a second rendering with no [append] in
    between (whatever else the handlers did to the loading flag or to the
    reply target) gives the same groups as the first. *)
Theorem group_idempotent (st : ChatState) :
  run (r1 ← group; r2 ← group; mret (r1, r2)) st
  = ((messageGroups (messages st), messageGroups (messages st)), st)
  ∧ (run group (run group st).2).1 = (run group st).1
  ∧ (∀ b, (run group (run (setIsLoading b) st).2).1 = (run group st).1)
  ∧ (∀ r, (run group (run (setReplyingTo r) st).2).1 = (run group st).1).
Proof. by split_and!. Qed.

(** * Further properties of the grouping *)

(** ** Lists of main messages *)

(** When no message of the list has a truthy [parentId] (absent or the empty
    string), every message is the main message of a group of its own, in
    order, and no group has a reply; ids may repeat. *)
Theorem main_messages_one_group_each (ms : list ThreadedMessage) :
  Forall (λ m, truthy (msg_parentId m) = false) ms →
  messageGroups ms = new_group <$> ms.
Proof.
  induction ms as [|m ms IH] using rev_ind; intros Hms; [done|].
  apply list.Forall_app in Hms as [Hms Hm]. apply Forall_inv in Hm.
  rewrite messageGroups_snoc, IH, fmap_app by done.
  by apply group_step_main.
Qed.

Lemma main_messages_one_group_each_witness :
  messageGroups [sample "7" None; sample "7" (Some EmptyString);
                 sample "8" None]
  = new_group <$> [sample "7" None; sample "7" (Some EmptyString);
                   sample "8" None].
Proof.
  apply (main_messages_one_group_each
           [sample "7" None; sample "7" (Some EmptyString); sample "8" None]).
  by repeat constructor.
Defined.

(** ** Groups under further appends *)

Lemma foldl_group_step_lookup_sublist (ms : list ThreadedMessage)
    (gs : list MessageGroup) (k : nat) (g : MessageGroup) :
  gs !! k = Some g →
  ∃ rs, foldl group_step gs ms !! k
        = Some {| grp_id := grp_id g; grp_message := grp_message g;
                  grp_replies := grp_replies g ++ rs |}
        ∧ rs `sublist_of`
            filter (λ m, msg_parentId m = Some (grp_id g)) ms.
Proof.
  revert gs g. induction ms as [|m ms IH]; intros gs g Hk; simpl.
  - exists []. rewrite app_nil_r. split; [by destruct g|done].
  - destruct (group_step_lookup gs m k g Hk) as [Hs|(Hs & _ & Hpar & _)].
    + destruct (IH _ _ Hs) as (rs & Hrs & Hsub). exists rs. split; [done|].
      etrans; [exact Hsub|]. rewrite filter_cons.
      case_decide; [by apply sublist_cons|done].
    + destruct (IH _ _ Hs) as (rs & Hrs & Hsub). exists (m :: rs).
      rewrite Hrs. simpl. rewrite <-app_assoc. split; [done|].
      rewrite filter_cons_True by done. by apply sublist_skip.
Qed.

Lemma foldl_group_step_length (ms : list ThreadedMessage)
    (gs : list MessageGroup) :
  (length gs ≤ length (foldl group_step gs ms))%nat.
Proof.
  revert gs. induction ms as [|m ms IH]; intros gs; simpl; [done|].
  etrans; [|apply IH].
  destruct (group_step_cases gs m)
    as [[-> _]|(l1 & g & l2 & -> & _ & _ & _ & ->)].
  - rewrite length_app. lia.
  - by rewrite !length_app.
Qed.

(** Appending messages to the store never moves, removes or relabels a group
    that is already shown: the group at every index keeps its id and its main
    message, and its replies are extended at the end by some of the appended
    messages whose [parentId] is its id, in their order. *)
Theorem groups_stable_under_append (ms extra : list ThreadedMessage)
    (k : nat) (g : MessageGroup) :
  messageGroups ms !! k = Some g →
  (length (messageGroups ms) ≤ length (messageGroups (ms ++ extra)))%nat
  ∧ ∃ rs, messageGroups (ms ++ extra) !! k
          = Some {| grp_id := grp_id g; grp_message := grp_message g;
                    grp_replies := grp_replies g ++ rs |}
          ∧ rs `sublist_of`
              filter (λ m, msg_parentId m = Some (grp_id g)) extra.
Proof.
  intros Hk. rewrite messageGroups_app. split.
  - apply foldl_group_step_length.
  - by apply foldl_group_step_lookup_sublist.
Qed.

Lemma groups_stable_under_append_witness :
  ∃ rs, messageGroups (scenario ++ [sample "4" (Some "2"); sample "5" None])
          !! 0
        = Some {| grp_id := "1";
                  grp_message :=
                    {| msg_id := "1"; msg_role := user;
                       msg_content := "What is inflation?";
                       msg_timestamp := 1; msg_parentId := None;
                       msg_threadIds := None |};
                  grp_replies :=
                    [ {| msg_id := "3"; msg_role := user;
                         msg_content := "tell me more"; msg_timestamp := 3;
                         msg_parentId := Some "1";
                         msg_threadIds := None |} ] ++ rs |}
        ∧ rs `sublist_of`
            filter (λ m, msg_parentId m = Some "1")
                   [sample "4" (Some "2"); sample "5" None].
Proof.
  apply (groups_stable_under_append scenario
           [sample "4" (Some "2"); sample "5" None] 0
           {| grp_id := "1";
              grp_message :=
                {| msg_id := "1"; msg_role := user;
                   msg_content := "What is inflation?";
                   msg_timestamp := 1; msg_parentId := None;
                   msg_threadIds := None |};
              grp_replies :=
                [ {| msg_id := "3"; msg_role := user;
                     msg_content := "tell me more"; msg_timestamp := 3;
                     msg_parentId := Some "1"; msg_threadIds := None |} ] |}).
  reflexivity.
Defined.

(** * The handlers of the container *)

(** ** One exchange *)

Lemma group_step_find (gs : list MessageGroup) (m : ThreadedMessage)
    (p : string) (k : nat) (g : MessageGroup) :
  msg_parentId m = Some p → p ≠ EmptyString →
  list_find (λ g, grp_id g = p) gs = Some (k, g) →
  group_step gs m = alter (push_reply m) k gs.
Proof.
  intros Hm Hp (Hk & Hid & Hfirst)%list_find_Some.
  unfold group_step. rewrite Hm, truthy_Some by done.
  assert (list_find (is_parent_of m) gs = Some (k, g)) as ->; [|done].
  apply list_find_Some. unfold is_parent_of. rewrite Hm.
  split_and!; [done|by rewrite Hid|].
  intros j g' Hj Hlt [= Heq]. by eapply Hfirst.
Qed.

Lemma list_find_alter_push (gs : list MessageGroup) (m : ThreadedMessage)
    (p : string) (k : nat) (g : MessageGroup) :
  list_find (λ g, grp_id g = p) gs = Some (k, g) →
  list_find (λ g, grp_id g = p) (alter (push_reply m) k gs)
  = Some (k, push_reply m g).
Proof.
  intros (Hk & Hid & Hfirst)%list_find_Some. apply list_find_Some.
  split_and!.
  - by rewrite list_lookup_alter, decide_True, Hk by done.
  - done.
  - intros j g' Hj Hlt. rewrite list_lookup_alter_ne in Hj by lia. eauto.
Qed.

(** A reply sent to a shown group: after [handleReply p], where [p] is the
    non-empty id of a group and [k] the index of the first group with that
    id, the user's message and then the message appended when the request
    settles (the assistant's answer or the apology) are pushed, in this
    order, onto the replies of group [k]; no group is added, the loading
    flag is down again and the reply target is forgotten. *)
Theorem exchange_in_thread (st : ChatState) (p : string) (k : nat)
    (g : MessageGroup) (content : string) (t1 t2 t3 t4 : N)
    (response : option ThreadedMessage) :
  p ≠ EmptyString →
  list_find (λ g, grp_id g = p) (messageGroups (messages st)) = Some (k, g) →
  ∃ u a,
    msg_role u = user ∧ msg_content u = content
    ∧ msg_id u = Date_toString t1
    ∧ msg_parentId u = Some p ∧ msg_parentId a = Some p
    ∧ run (handleReply p;;
           u ← handleSendMessage_begin t1 t2 content;
           handleSendMessage_settle u response t3 t4;;
           group) st
      = (alter (λ g, push_reply a (push_reply u g)) k
           (messageGroups (messages st)),
         {| messages := messages st ++ [u; a]; isLoading := false;
            replyingTo := None |}).
Proof.
  intros Hp Hfind.
  pose (u := {| msg_id := Date_toString t1; msg_role := user;
                msg_content := content; msg_timestamp := t2;
                msg_parentId := Some p; msg_threadIds := None |}).
  pose (am :=
    match response with
    | Some message =>
        {| msg_id := msg_id message; msg_role := msg_role message;
           msg_content := msg_content message;
           msg_timestamp := msg_timestamp message;
           msg_parentId := Some p;
           msg_threadIds := msg_threadIds message |}
    | None =>
        {| msg_id := Date_toString t3; msg_role := assistant;
           msg_content :=
             "Sorry, I encountered an error processing your request. Please try again.";
           msg_timestamp := t4; msg_parentId := Some p;
           msg_threadIds := None |}
    end).
  exists u, am.
  assert (msg_parentId am = Some p) as Hpar by by destruct response.
  split_and!; try done.
  transitivity
    (messageGroups ((messages st ++ [u]) ++ [am]),
     {| messages := (messages st ++ [u]) ++ [am]; isLoading := false;
        replyingTo := None |}).
  { destruct p; [done|]. by destruct response. }
  rewrite !messageGroups_snoc.
  rewrite (group_step_find _ u p k g) by done.
  rewrite (group_step_find _ am p k (push_reply u g));
    [|done..|by apply list_find_alter_push].
  by rewrite list_alter_alter_eq, <-app_assoc.
Qed.

Lemma exchange_in_thread_witness :
  ∃ u a,
    msg_role u = user ∧ msg_content u = "and deflation?"
    ∧ msg_id u = Date_toString 10
    ∧ msg_parentId u = Some "1" ∧ msg_parentId a = Some "1"
    ∧ run (handleReply "1";;
           u ← handleSendMessage_begin 10 11 "and deflation?";
           handleSendMessage_settle u None 12 13;;
           group)
          {| messages := scenario; isLoading := false; replyingTo := None |}
      = (alter (λ g, push_reply a (push_reply u g)) 0
           (messageGroups scenario),
         {| messages := scenario ++ [u; a]; isLoading := false;
            replyingTo := None |}).
Proof.
  apply (exchange_in_thread
           {| messages := scenario; isLoading := false; replyingTo := None |}
           "1" 0
           {| grp_id := "1";
              grp_message :=
                {| msg_id := "1"; msg_role := user;
                   msg_content := "What is inflation?";
                   msg_timestamp := 1; msg_parentId := None;
                   msg_threadIds := None |};
              grp_replies :=
                [ {| msg_id := "3"; msg_role := user;
                     msg_content := "tell me more"; msg_timestamp := 3;
                     msg_parentId := Some "1"; msg_threadIds := None |} ] |}).
  - discriminate.
  - reflexivity.
Defined.

(** A message sent with no reply target (none chosen, or the empty string):
    the user's message and then the message appended when the request settles
    each start a group, after the groups already shown, which stay as they
    are. *)
Theorem exchange_on_main_thread (st : ChatState) (content : string)
    (t1 t2 t3 t4 : N) (response : option ThreadedMessage) :
  truthy (replyingTo st) = false →
  ∃ u a,
    msg_role u = user ∧ msg_content u = content
    ∧ msg_id u = Date_toString t1
    ∧ msg_parentId u = None ∧ msg_parentId a = None
    ∧ run (u ← handleSendMessage_begin t1 t2 content;
           handleSendMessage_settle u response t3 t4;;
           group) st
      = (messageGroups (messages st) ++ [new_group u; new_group a],
         {| messages := messages st ++ [u; a]; isLoading := false;
            replyingTo := replyingTo st |}).
Proof.
  intros Hr.
  pose (u := {| msg_id := Date_toString t1; msg_role := user;
                msg_content := content; msg_timestamp := t2;
                msg_parentId := None; msg_threadIds := None |}).
  pose (am :=
    match response with
    | Some message =>
        {| msg_id := msg_id message; msg_role := msg_role message;
           msg_content := msg_content message;
           msg_timestamp := msg_timestamp message;
           msg_parentId := None;
           msg_threadIds := msg_threadIds message |}
    | None =>
        {| msg_id := Date_toString t3; msg_role := assistant;
           msg_content :=
             "Sorry, I encountered an error processing your request. Please try again.";
           msg_timestamp := t4; msg_parentId := None;
           msg_threadIds := None |}
    end).
  exists u, am.
  assert (msg_parentId am = None) as Hpar by by destruct response.
  split_and!; try done.
  transitivity
    (messageGroups ((messages st ++ [u]) ++ [am]),
     {| messages := (messages st ++ [u]) ++ [am]; isLoading := false;
        replyingTo := replyingTo st |}).
  { unfold run, handleSendMessage_begin, getReplyingTo, mbind, Hook_bind.
    rewrite Hr. by destruct response. }
  rewrite !messageGroups_snoc.
  rewrite (group_step_main _ u) by done.
  rewrite (group_step_main _ am) by by rewrite Hpar.
  by rewrite <-!app_assoc.
Qed.

Lemma exchange_on_main_thread_witness :
  ∃ u a,
    msg_role u = user ∧ msg_content u = "hello"
    ∧ msg_id u = Date_toString 10
    ∧ msg_parentId u = None ∧ msg_parentId a = None
    ∧ run (u ← handleSendMessage_begin 10 11 "hello";
           handleSendMessage_settle u None 12 13;;
           group)
          (run (handleReply "1";; handleCancelReply)
               {| messages := scenario; isLoading := false;
                  replyingTo := None |}).2
      = (messageGroups
           (messages (run (handleReply "1";; handleCancelReply)
                          {| messages := scenario; isLoading := false;
                             replyingTo := None |}).2)
         ++ [new_group u; new_group a],
         {| messages := scenario ++ [u; a]; isLoading := false;
            replyingTo := None |}).
Proof.
  exact (exchange_on_main_thread
           (run (handleReply "1";; handleCancelReply)
                {| messages := scenario; isLoading := false;
                   replyingTo := None |}).2
           "hello" 10 11 12 13 None eq_refl).
Defined.

(** * What is rendered *)

Lemma group_step_replies_truthy (gs : list MessageGroup)
    (m : ThreadedMessage) :
  Forall (λ g, Forall (λ r, truthy (msg_parentId r) = true) (grp_replies g))
         gs →
  Forall (λ g, Forall (λ r, truthy (msg_parentId r) = true) (grp_replies g))
         (group_step gs m).
Proof.
  intros Hgs.
  destruct (group_step_cases gs m)
    as [[-> _]|(l1 & g & l2 & -> & Ht & _ & _ & ->)].
  - apply list.Forall_app. split; [done|]. by repeat constructor.
  - apply list.Forall_app in Hgs as [Hl1 Hgl2].
    apply list.Forall_cons in Hgl2 as [Hg Hl2].
    apply list.Forall_app. split; [done|]. constructor; [|done].
    simpl. apply list.Forall_app. split; [done|]. by repeat constructor.
Qed.

Lemma messageGroups_replies_truthy (ms : list ThreadedMessage) :
  Forall (λ g, Forall (λ r, truthy (msg_parentId r) = true) (grp_replies g))
         (messageGroups ms).
Proof.
  induction ms as [|m ms IH] using rev_ind; [constructor|].
  rewrite messageGroups_snoc. by apply group_step_replies_truthy.
Qed.

(** A group that has a reply has a non-empty id. *)
Lemma replied_group_id (ms : list ThreadedMessage) (g : MessageGroup)
    (r : ThreadedMessage) :
  g ∈ messageGroups ms → r ∈ grp_replies g → grp_id g ≠ EmptyString.
Proof.
  intros Hg Hr Hid.
  pose proof (messageGroups_ok ms) as Hok.
  pose proof (messageGroups_replies_truthy ms) as Htr.
  rewrite list.Forall_forall in Hok, Htr.
  destruct (Hok g Hg) as [_ Hpar]. specialize (Htr g Hg).
  rewrite list.Forall_forall in Hpar, Htr.
  specialize (Hpar r Hr). specialize (Htr r Hr).
  by rewrite Hpar, Hid in Htr.
Qed.

(** In the rendered list, the bubble of every main message has a Reply
    button, whose click passes the id of its group to [onReply], and no
    thread indicator; the bubble of every reply has no Reply button (a reply
    cannot be replied to) and always shows the indicator, with
    [substring(0, 8)] of the id of its group, which is not empty. *)
Theorem only_main_messages_offer_reply
    (substring : nat → nat → string → string) (ms : list ThreadedMessage)
    (loading : bool) (onReply : string → Hook unit)
    (groups : list GroupView) (gv : GroupView) :
  mlv_body (MessagesList substring ms loading (Some onReply))
  = GroupViews groups →
  gv ∈ groups →
  bv_replyButton (gv_main gv) = Some (onReply (gv_key gv))
  ∧ bv_indicator (gv_main gv) = None
  ∧ ∀ key b, (key, b) ∈ gv_replies gv →
      bv_replyButton b = None
      ∧ gv_key gv ≠ EmptyString
      ∧ bv_indicator b = Some (substring 0 8 (gv_key gv)).
Proof.
  unfold MessagesList. simpl. case_decide; [done|].
  intros [= <-] (g & -> & Hg)%list_elem_of_fmap.
  pose proof (messageGroups_ok ms) as Hok.
  rewrite list.Forall_forall in Hok. destruct (Hok g Hg) as [Hid _].
  simpl. split_and!; [by rewrite Hid|done|].
  intros key b (r & [= -> ->] & Hr)%list_elem_of_fmap.
  pose proof (replied_group_id ms g r Hg Hr) as Hne.
  unfold MessageBubble.
  cbn [bv_replyButton bv_indicator gv_key render_group andb snd].
  rewrite <-Hid, truthy_Some by done. done.
Qed.

Lemma only_main_messages_offer_reply_witness :
  bv_replyButton (MessageBubble String.substring (sample "3" (Some "1")) true
                    (Some "1") None)
  = None
  ∧ "1" ≠ EmptyString
  ∧ bv_indicator (MessageBubble String.substring (sample "3" (Some "1")) true
                    (Some "1") None)
    = Some (String.substring 0 8 "1").
Proof.
  destruct (only_main_messages_offer_reply String.substring
              [sample "1" None; sample "3" (Some "1")] false handleReply
              [render_group String.substring (Some handleReply)
                 {| grp_id := "1"; grp_message := sample "1" None;
                    grp_replies := [sample "3" (Some "1")] |}]
              (render_group String.substring (Some handleReply)
                 {| grp_id := "1"; grp_message := sample "1" None;
                    grp_replies := [sample "3" (Some "1")] |})
              eq_refl (list_elem_of_here _ _)) as (_ & _ & Hreplies).
  apply (Hreplies "3"). apply list_elem_of_here.
Defined.

Lemma length_rendered (gs : list MessageGroup) :
  length (rendered gs) = sum_list ((λ g, S (length (grp_replies g))) <$> gs).
Proof.
  induction gs as [|g gs IH]; [done|].
  rewrite rendered_cons. simpl. rewrite length_app. by rewrite IH.
Qed.

(** The invitation to start a conversation is shown exactly when there is
    no message; otherwise at least one group is shown, and the bubbles of
    all groups (one per main message, one per reply) are as many as the
    messages.  The typing indicator follows the loading flag. *)
Theorem list_shows_every_message
    (substring : nat → nat → string → string) (ms : list ThreadedMessage)
    (loading : bool) (onReply : option (string → Hook unit)) :
  (mlv_body (MessagesList substring ms loading onReply) = StartPrompt
   ↔ ms = [])
  ∧ mlv_typing (MessagesList substring ms loading onReply) = loading
  ∧ (ms ≠ [] →
     ∃ groups,
       mlv_body (MessagesList substring ms loading onReply)
       = GroupViews groups
       ∧ groups ≠ []
       ∧ sum_list ((λ gv, S (length (gv_replies gv))) <$> groups)
         = length ms).
Proof.
  unfold MessagesList. simpl. split_and!; [|done|].
  - case_decide as Hlen.
    + split; [|done]. intros _. by apply nil_length_inv.
    + split; [done|]. by intros ->.
  - intros Hne. rewrite decide_False by by destruct ms.
    eexists. split; [done|].
    pose proof (rendered_foldl ms []) as Hperm.
    apply Permutation_length in Hperm. fold (messageGroups ms) in Hperm.
    rewrite length_rendered in Hperm. simpl in Hperm.
    split.
    + intros Hnil%fmap_nil_inv. rewrite Hnil in Hperm. simpl in Hperm.
      destruct ms; [done|]. discriminate.
    + rewrite <-Hperm, <-list_fmap_compose.
      f_equal. apply list_fmap_ext. intros i g _. simpl.
      by rewrite length_fmap.
Qed.

Lemma list_shows_every_message_witness :
  ∃ groups,
    mlv_body (MessagesList String.substring scenario true None)
    = GroupViews groups
    ∧ groups ≠ []
    ∧ sum_list ((λ gv, S (length (gv_replies gv))) <$> groups)
      = length scenario.
Proof.
  by apply (list_shows_every_message String.substring scenario true None).
Defined.

(** * The page *)

Lemma handleSendMessage_begin_run (now_id now_ts : N) (content : string)
    (st : ChatState) :
  run (handleSendMessage_begin now_id now_ts content) st
  = ({| msg_id := Date_toString now_id; msg_role := user;
        msg_content := content; msg_timestamp := now_ts;
        msg_parentId :=
          if truthy (replyingTo st) then replyingTo st else None;
        msg_threadIds := None |},
     {| messages :=
          messages st
          ++ [ {| msg_id := Date_toString now_id; msg_role := user;
                  msg_content := content; msg_timestamp := now_ts;
                  msg_parentId :=
                    if truthy (replyingTo st) then replyingTo st else None;
                  msg_threadIds := None |} ];
        isLoading := true;
        replyingTo :=
          if truthy (replyingTo st) then None else replyingTo st |}).
Proof.
  unfold run, handleSendMessage_begin, getReplyingTo, mbind, Hook_bind.
  by destruct (truthy (replyingTo st)).
Qed.

Lemma handleSendMessage_settle_run (u : ThreadedMessage)
    (response : option ThreadedMessage) (now_id now_ts : N) (st : ChatState) :
  ∃ a, msg_parentId a = msg_parentId u
       ∧ (run (handleSendMessage_settle u response now_id now_ts) st).2
         = {| messages := messages st ++ [a]; isLoading := false;
              replyingTo := replyingTo st |}.
Proof.
  destruct response as [message|]; eexists; (split; [|reflexivity]); done.
Qed.

Lemma reply_button_Some (substring : nat → nat → string → string)
    (st : ChatState) (k : nat) (click : Hook unit) :
  reply_button substring st k = Some click →
  ∃ g, messageGroups (messages st) !! k = Some g
       ∧ click = handleReply (msg_id (grp_message g)).
Proof.
  unfold reply_button, ChatContainer_list, MessagesList. simpl.
  case_decide; [done|]. rewrite list_lookup_fmap.
  destruct (messageGroups (messages st) !! k) as [g|]; [|done].
  simpl. intros [= <-]. by exists g.
Qed.

(** A group id that exists keeps existing when messages are appended. *)
Lemma groups_keep_ids (ms extra : list ThreadedMessage) (o : option string) :
  Exists (λ g, Some (grp_id g) = o) (messageGroups ms) →
  Exists (λ g, Some (grp_id g) = o) (messageGroups (ms ++ extra)).
Proof.
  rewrite !list.Exists_exists. intros (g & Hg & Hid).
  apply list_elem_of_lookup in Hg as [k Hk].
  rewrite messageGroups_app.
  destruct (foldl_group_step_lookup extra _ k g Hk) as [rs Hrs].
  eexists. split; [by eapply list_elem_of_lookup_2|done].
Qed.

Lemma orphan_free_snoc (ms : list ThreadedMessage) (m : ThreadedMessage) :
  orphan_free ms →
  (truthy (msg_parentId m) = true →
   Exists (is_parent_of m) (messageGroups ms)) →
  orphan_free (ms ++ [m]).
Proof.
  intros Hms Hm i m' Hi Ht.
  destruct (decide (i < length ms)) as [Hlt|Hge].
  - rewrite lookup_app_l in Hi by done.
    rewrite take_app_le by lia. by apply Hms.
  - apply lookup_lt_Some in Hi as Hlen. rewrite length_app in Hlen.
    simpl in Hlen. assert (i = length ms) as -> by lia.
    rewrite list_lookup_middle in Hi by done. simplify_eq.
    rewrite take_app_length. by apply Hm.
Qed.

Lemma orphan_free_inv (ms : list ThreadedMessage) (m : ThreadedMessage) :
  orphan_free (ms ++ [m]) →
  orphan_free ms
  ∧ (truthy (msg_parentId m) = true →
     Exists (is_parent_of m) (messageGroups ms)).
Proof.
  intros Hms. split.
  - intros i m' Hi Ht. apply lookup_lt_Some in Hi as Hlt.
    rewrite <-(take_app_le ms [m]) by lia. apply Hms; [|done].
    by apply lookup_app_l_Some.
  - intros Ht. rewrite <-(take_app_length ms [m]) at 1.
    apply Hms; [|done]. by rewrite list_lookup_middle.
Qed.

(** In a list without orphans, the main messages of the groups are the
    messages without truthy [parentId], in order. *)
Lemma orphan_free_mains (ms : list ThreadedMessage) :
  orphan_free ms →
  grp_message <$> messageGroups ms
  = filter (λ m, truthy (msg_parentId m) = false) ms.
Proof.
  induction ms as [|m ms IH] using rev_ind; intros Hof; [done|].
  apply orphan_free_inv in Hof as [Hof Hm].
  rewrite messageGroups_snoc, list.filter_app, <-IH by done.
  destruct (group_step_cases (messageGroups ms) m)
    as [[-> [Ht|Hnone]]|(l1 & g & l2 & Hsplit & Ht & _ & _ & ->)].
  - rewrite fmap_app, filter_cons_True by done. done.
  - destruct (truthy (msg_parentId m)) eqn:Ht.
    + specialize (Hm eq_refl). apply list.Exists_exists in Hm as (g & Hg & Hp).
      rewrite list.Forall_forall in Hnone. by destruct (Hnone g Hg).
    + rewrite fmap_app, filter_cons_True by done. done.
  - rewrite filter_cons_False, app_nil_r by by rewrite Ht.
    rewrite Hsplit, !fmap_app, !fmap_cons. done.
Qed.

Section Page.
Variable substring : nat → nat → string → string.
Variable trim : string → string.

Lemma ui_step_one_request (e : UiEvent) (s : UiState) :
  one_request s → one_request (ui_step substring trim e s).
Proof.
  intros Hs. destruct e as [value|k| |t1 t2|i response t1 t2]; simpl.
  - done.
  - destruct (reply_button substring (ui_chat s) k) as [click|] eqn:Hb; [|done].
    apply reply_button_Some in Hb as (g & _ & ->). done.
  - by destruct (truthy (replyingTo (ui_chat s))).
  - unfold handleSubmit.
    destruct (bool_decide (trim (ui_input s) = EmptyString)
              || isLoading (ui_chat s)) eqn:Hguard; [done|].
    apply orb_false_iff in Hguard as [_ Hload].
    rewrite handleSendMessage_begin_run.
    destruct Hs as [[Hp _]|(u & _ & Hl)]; [|congruence].
    right. eexists. simpl. by rewrite Hp.
  - destruct (ui_pending s !! i) as [u|] eqn:Hi; [|done].
    destruct (handleSendMessage_settle_run u response t1 t2 (ui_chat s))
      as (a & _ & Hrun).
    unfold one_request. simpl. rewrite Hrun. simpl.
    destruct Hs as [[Hp _]|(u' & Hp & _)]; rewrite Hp in Hi |- *.
    + done.
    + destruct i; [|done]. by left.
Qed.

(** On the page at most one request is pending at any time, and the loading
    flag (which disables the input and shows the typing indicator) is up
    exactly while one is: a submit during a pending request sends nothing. *)
Theorem page_one_request_at_a_time (s : UiState) :
  reachable substring trim s → one_request s.
Proof.
  induction 1 as [|e s _ IH]; [by left|]. by apply ui_step_one_request.
Qed.

Lemma ui_step_threads_resolved (e : UiEvent) (s : UiState) :
  threads_resolved s → threads_resolved (ui_step substring trim e s).
Proof.
  intros (Hof & Hne & Hrt & Hpend).
  destruct e as [value|k| |t1 t2|i response t1 t2]; simpl.
  - done.
  - destruct (reply_button substring (ui_chat s) k) as [click|] eqn:Hb;
      [|by unfold threads_resolved; split_and!].
    apply reply_button_Some in Hb as (g & Hg & ->).
    split_and!; try done. simpl. intros _.
    apply list.Exists_exists. exists g.
    split; [by eapply list_elem_of_lookup_2|].
    pose proof (messageGroups_ok (messages (ui_chat s))) as Hok.
    eapply Forall_lookup_1 in Hok as [Hid _]; [|exact Hg].
    by rewrite Hid.
  - destruct (truthy (replyingTo (ui_chat s))) eqn:Hr.
    + unfold threads_resolved. simpl. by split_and!.
    + unfold threads_resolved. split_and!; [done..| |done].
      intros Ht. congruence.
  - unfold handleSubmit.
    destruct (bool_decide (trim (ui_input s) = EmptyString)
              || isLoading (ui_chat s)); [by unfold threads_resolved; split_and!|].
    rewrite handleSendMessage_begin_run. unfold threads_resolved.
    cbn [ui_chat ui_pending messages replyingTo].
    set (r := replyingTo (ui_chat s)) in *.
    set (u := {| msg_id := Date_toString t1; msg_role := user;
                 msg_content := trim (ui_input s); msg_timestamp := t2;
                 msg_parentId := if truthy r then r else None;
                 msg_threadIds := None |}).
    assert (msg_parentId u ≠ Some EmptyString) as Hu_ne.
    { simpl. destruct (truthy r) eqn:Hr; [|done]. by intros ->. }
    assert (truthy (msg_parentId u) = true →
            Exists (is_parent_of u) (messageGroups (messages (ui_chat s))))
      as Hu.
    { simpl. destruct (truthy r) eqn:Hr; [|done]. intros _.
      unfold is_parent_of. simpl. by apply Hrt. }
    split_and!.
    + by apply orphan_free_snoc.
    + apply list.Forall_app. split; [done|]. by constructor.
    + destruct (truthy r) eqn:Hr; intros Ht; [done|].
      change (truthy r = true) in Ht. congruence.
    + apply list.Forall_app. split.
      * eapply List.Forall_impl; [|exact Hpend]. simpl.
        intros u' [? Hu']. split; [done|]. intros Ht.
        by apply groups_keep_ids, Hu'.
      * constructor; [|done]. split; [done|]. intros Ht.
        by apply groups_keep_ids, Hu.
  - destruct (ui_pending s !! i) as [u|] eqn:Hi; [|by unfold threads_resolved; split_and!].
    destruct (handleSendMessage_settle_run u response t1 t2 (ui_chat s))
      as (a & Ha & Hrun).
    unfold threads_resolved. simpl. rewrite Hrun. simpl.
    eapply Forall_lookup_1 in Hpend as Hu; [|exact Hi].
    destruct Hu as [Hu_ne Hu].
    split_and!.
    + apply orphan_free_snoc; [done|]. unfold is_parent_of.
      rewrite Ha. exact Hu.
    + apply list.Forall_app. split; [done|]. constructor; [|done].
      by rewrite Ha.
    + intros Ht. by apply groups_keep_ids, Hrt.
    + apply Forall_delete.
      eapply List.Forall_impl; [|exact Hpend]. simpl.
      intros u' [? Hu']. split; [done|]. intros Ht.
      by apply groups_keep_ids, Hu'.
Qed.

Lemma reachable_threads_resolved (s : UiState) :
  reachable substring trim s → threads_resolved s.
Proof.
  induction 1 as [|e s _ IH]; [|by apply ui_step_threads_resolved].
  split_and!; done.
Qed.

(** On the page the branch of the reduction for a parent that is not found
    is never taken: in every state the page can reach, each stored message
    with a [parentId] bears a non-empty one that is the id of a group
    produced from the messages before it, and the groups are exactly the
    messages without [parentId], in order. *)
Theorem page_never_orphans (s : UiState) :
  reachable substring trim s →
  orphan_free (messages (ui_chat s))
  ∧ Forall (λ m, msg_parentId m ≠ Some EmptyString) (messages (ui_chat s))
  ∧ grp_message <$> messageGroups (messages (ui_chat s))
    = filter (λ m, msg_parentId m = None) (messages (ui_chat s)).
Proof.
  intros (Hof & Hne & _)%reachable_threads_resolved.
  split_and!; [done..|].
  rewrite orphan_free_mains by done. clear Hof.
  induction Hne as [|m ms Hm _ IH]; [done|].
  rewrite !filter_cons, IH. simpl.
  destruct (msg_parentId m) as [[|c p]|]; simpl; [done|..];
    repeat case_decide; done.
Qed.
End Page.

Lemma page_one_request_at_a_time_witness :
  one_request
    (ui_step String.substring (λ text, text) (SubmitForm 5 6)
       (ui_step String.substring (λ text, text) (SubmitForm 3 4)
          (ui_step String.substring (λ text, text) (TypeText "hello") ui_initial))).
Proof.
  apply (page_one_request_at_a_time String.substring (λ text, text)).
  repeat constructor.
Defined.

Lemma page_never_orphans_witness :
  orphan_free
    (messages (ui_chat
       (ui_step String.substring (λ text, text) (SubmitForm 7 8)
          (ui_step String.substring (λ text, text) (TypeText "tell me more")
             (ui_step String.substring (λ text, text) (ClickReply 0)
                (ui_step String.substring (λ text, text) (RequestSettled 0 None 5 6)
                   (ui_step String.substring (λ text, text) (SubmitForm 3 4)
                      (ui_step String.substring (λ text, text) (TypeText "hello")
                         ui_initial))))))))
  ∧ msg_parentId
      <$> messages (ui_chat
            (ui_step String.substring (λ text, text) (SubmitForm 7 8)
               (ui_step String.substring (λ text, text) (TypeText "tell me more")
                  (ui_step String.substring (λ text, text) (ClickReply 0)
                     (ui_step String.substring (λ text, text) (RequestSettled 0 None 5 6)
                        (ui_step String.substring (λ text, text) (SubmitForm 3 4)
                           (ui_step String.substring (λ text, text) (TypeText "hello")
                              ui_initial)))))))
    = [None; None; Some "3"].
Proof.
  split; [|by vm_compute].
  apply (page_never_orphans String.substring (λ text, text)).
  repeat constructor.
Defined.

(** * The chat endpoint *)

Section ChatApiFacts.
Context {Num : Type} (num_truthy : Num → bool) (num_of_N : N → Num).

Lemma json_field_last (key : string) (fields : list (string * JsonValue Num))
    (v : JsonValue Num) :
  json_field key (fields ++ [(key, v)]) = Some v.
Proof.
  unfold json_field. rewrite foldl_snoc. simpl. by rewrite decide_True.
Qed.

Local Ltac status_case :=
  split_and!;
  [ split; [ first [done | by eauto]
           | first [done | by intros (? & ? & ? & ?); simplify_eq] ]
  | split; [ first [done | by auto] | first [done | by intros [?|?]] ]
  | first [ by left | by right; left | by right; right ] ].

(** The endpoint answers 200 exactly when the body is an object whose
    [messages] is an array (the empty array included; the items are never
    looked at), with the dummy message of the server's clock; it answers 500
    exactly when the body cannot be parsed or is [null]; in every other case
    it answers 400 with the message [Messages array is required] and neither
    code nor details. *)
Theorem chat_endpoint_status (body : option (JsonValue Num))
    (now_id now_ts : N) :
  (resp_status (POST num_truthy body now_id now_ts) = 200
   ↔ ∃ fields items, body = Some (JObject fields)
                     ∧ json_field "messages" fields = Some (JArray items))
  ∧ (resp_status (POST num_truthy body now_id now_ts) = 500
     ↔ body = None ∨ body = Some JNull)
  ∧ (resp_status (POST num_truthy body now_id now_ts) = 200
     ∧ resp_body (POST num_truthy body now_id now_ts)
       = SuccessBody (dummyResponse now_id now_ts) None
     ∨ resp_status (POST num_truthy body now_id now_ts) = 400
       ∧ resp_body (POST num_truthy body now_id now_ts)
         = ErrorBody "Messages array is required" None None
     ∨ resp_status (POST num_truthy body now_id now_ts) = 500
       ∧ resp_body (POST num_truthy body now_id now_ts)
         = ErrorBody "Internal server error" None None).
Proof.
  unfold POST, POST_try.
  destruct body as [[|b|n|s|items|fields]|]; simpl; try status_case.
  destruct (json_field "messages" fields) as [[|b|n|s|items|fields']|]
    eqn:Hf; simpl; try status_case.
  - destruct b; status_case.
  - destruct (num_truthy n); status_case.
  - destruct s; status_case.
Qed.

(** Against this endpoint, the request that [handleSendMessage] builds (the
    messages of the store and the new user message, as an array under
    [messages]) is always accepted, whatever the state: the response is the
    server's dummy message, and it is stored right after the user's message,
    with the user message's [parentId]; the apology is not used. *)
Theorem sent_message_is_answered (st : ChatState) (content : string)
    (t1 t2 t3 t4 t5 t6 : N) :
  let (u, st1) := run (handleSendMessage_begin t1 t2 content) st in
  let response :=
    response_message
      (POST num_truthy (Some (request_body num_of_N (messages st) u)) t3 t4) in
  response = Some (dummyResponse t3 t4)
  ∧ (run (handleSendMessage_settle u response t5 t6) st1).2
    = {| messages :=
           messages st
           ++ [u; {| msg_id := Date_toString t3; msg_role := assistant;
                     msg_content := msg_content (dummyResponse t3 t4);
                     msg_timestamp := t4;
                     msg_parentId := msg_parentId u;
                     msg_threadIds := None |}];
         isLoading := false; replyingTo := replyingTo st1 |}.
Proof.
  rewrite handleSendMessage_begin_run. cbv zeta. split; [done|].
  unfold run. simpl. by rewrite <-app_assoc.
Qed.
End ChatApiFacts.

(** * The middleware *)

Lemma startsWith_inv (path prefix : string) :
  startsWith path prefix = true → ∃ rest, path = prefix +:+ rest.
Proof.
  unfold startsWith. revert path.
  induction prefix as [|c prefix IH]; intros path.
  - by exists path.
  - destruct path as [|c' path]; simpl; [done|].
    destruct (Ascii.ascii_dec c c') as [->|]; [|done].
    intros [rest ->]%IH. by exists rest.
Qed.

(** A protected page is neither an internal path, nor a public API path,
    nor a login page, nor an API path. *)
Lemma protected_path_plain (path : string) :
  isProtectedPath path = true →
  isNextInternalPath path = false ∧ isPublicApiPath path = false
  ∧ isAuthRedirectPath path = false ∧ startsWith path "/api/" = false.
Proof.
  unfold isProtectedPath, protectedPaths. simpl.
  rewrite !orb_true_iff.
  intros [H|[H|[H|[H|[H|H]]]]]; [..|done];
    apply startsWith_inv in H as [rest ->]; by vm_compute.
Qed.

Lemma login_path_plain (path : string) :
  isAuthRedirectPath path = true →
  isNextInternalPath path = false ∧ isPublicApiPath path = false
  ∧ isProtectedPath path = false ∧ startsWith path "/api/" = false.
Proof.
  unfold isAuthRedirectPath, authRedirectPaths. simpl.
  rewrite !orb_true_iff.
  intros [H|[H|H]]; [..|done];
    apply startsWith_inv in H as [rest ->]; by vm_compute.
Qed.

Lemma api_path_plain (path : string) :
  startsWith path "/api/" = true →
  isNextInternalPath path = false ∧ isProtectedPath path = false
  ∧ isAuthRedirectPath path = false.
Proof. intros [rest ->]%startsWith_inv. by vm_compute. Qed.

(** The pages: a request without token for a path under a protected prefix
    is always redirected to the login page, with the path as [callbackUrl],
    and a request with a token for it goes through unchanged; a request with
    a token for a login or registration path is always redirected to the
    dashboard, and one without token goes through. *)
Theorem middleware_page_guards (path : string) :
  (isProtectedPath path = true →
   middleware path None = RedirectTo "/login" (Some path)
   ∧ ∀ token, middleware path (Some token) = NextPlain)
  ∧ (isAuthRedirectPath path = true →
     middleware path None = NextPlain
     ∧ ∀ token, middleware path (Some token) = RedirectTo "/dashboard" None).
Proof.
  split.
  - intros Hp. destruct (protected_path_plain path Hp) as (Hi & Ha & Hl & Hapi).
    unfold middleware. by rewrite Hi, Ha, Hp, Hl, Hapi.
  - intros Hl. destruct (login_path_plain path Hl) as (Hi & Ha & Hp & Hapi).
    unfold middleware. by rewrite Hi, Ha, Hp, Hl, Hapi.
Qed.

Lemma middleware_page_guards_witness :
  middleware "/profile/settings" None
  = RedirectTo "/login" (Some "/profile/settings")
  ∧ middleware "/profile/settings"
      (Some {| tok_id := "u1"; tok_role := Some "admin" |})
    = NextPlain.
Proof.
  destruct (middleware_page_guards "/profile/settings") as [Hprot _].
  destruct (Hprot eq_refl) as [Hnone Hsome]. split; [exact Hnone|].
  apply Hsome.
Defined.

(** The API: the middleware answers 401 exactly to requests without token
    for a path under [/api/] that is not under a public API prefix, and to
    nothing else; with a token such a request goes through with the user's
    id and role in its headers, the role being [user] when the token has
    none. *)
Theorem middleware_api_requires_token (path : string) :
  (∀ token status,
     middleware path token = JsonUnauthorized status
     ↔ token = None ∧ status = 401
       ∧ startsWith path "/api/" = true ∧ isPublicApiPath path = false)
  ∧ (startsWith path "/api/" = true → isPublicApiPath path = false →
     ∀ token,
       middleware path (Some token)
       = NextWithUser (tok_id token)
           (if truthy (tok_role token)
            then default "user" (tok_role token) else "user")).
Proof.
  split.
  - intros token status. split.
    + unfold middleware.
      destruct (isNextInternalPath path); [done|].
      destruct (isPublicApiPath path) eqn:Ha; [done|].
      destruct token as [token|].
      * destruct (isAuthRedirectPath path); [done|].
        by destruct (startsWith path "/api/").
      * destruct (isProtectedPath path); [done|].
        destruct (startsWith path "/api/"); [|done].
        simpl. by intros [= <-].
    + intros (-> & -> & Hapi & Ha).
      destruct (api_path_plain path Hapi) as (Hi & Hp & Hl).
      unfold middleware. by rewrite Hi, Ha, Hp, Hapi.
  - intros Hapi Ha token.
    destruct (api_path_plain path Hapi) as (Hi & Hp & Hl).
    unfold middleware. by rewrite Hi, Ha, Hl, Hapi.
Qed.

Lemma middleware_api_requires_token_witness :
  middleware "/api/chat" None = JsonUnauthorized 401
  ∧ middleware "/api/chat"
      (Some {| tok_id := "u1"; tok_role := None |})
    = NextWithUser "u1" "user".
Proof.
  destruct (middleware_api_requires_token "/api/chat") as [H401 Huser].
  split.
  - by apply H401.
  - by apply (Huser eq_refl eq_refl {| tok_id := "u1"; tok_role := None |}).
Defined.

(** A visitor without token can send chat messages, but every one of them
    is answered by the apology: the middleware answers 401 before the chat
    route runs.  With a token the answer is the route's dummy message.  In
    both cases the answer is stored right after the user's message, with
    its [parentId]. *)
Theorem chat_needs_token {Num : Type} (num_truthy : Num → bool)
    (num_of_N : N → Num) (st : ChatState) (content : string)
    (t1 t2 t3 t4 t5 t6 : N) :
  let (u, st1) := run (handleSendMessage_begin t1 t2 content) st in
  let body := Some (request_body num_of_N (messages st) u) in
  (chat_fetch num_truthy None body t3 t4 = None
   ∧ ∃ apology,
       msg_id apology = Date_toString t5 ∧ msg_role apology = assistant
       ∧ msg_parentId apology = msg_parentId u
       ∧ messages (run (handleSendMessage_settle u
                          (chat_fetch num_truthy None body t3 t4) t5 t6)
                       st1).2
         = messages st ++ [u; apology])
  ∧ (∀ token,
       chat_fetch num_truthy (Some token) body t3 t4
       = Some (dummyResponse t3 t4)).
Proof.
  rewrite handleSendMessage_begin_run. cbv zeta. split.
  - split; [done|]. eexists. split_and!; [..|simpl; by rewrite <-app_assoc];
      done.
  - done.
Qed.

(** * Date formatting *)

Section FormatDateFacts.
Variable intl_format : bool → bool → Z → string.

Local Ltac decide_ranges :=
  repeat case_bool_decide; try (exfalso; Z.div_mod_to_equations; lia).

(** The relative format, by the age [now - date] of the date in
    milliseconds: [just now] below one minute (dates in the future
    included); the whole minutes up to one hour, the whole hours up to one
    day and the whole days up to seven days, each with the singular for
    exactly one; and from seven days on the short date without time,
    whatever [includeTime] says. *)
Theorem relative_time_ranges (now date : Z) (includeTime : option bool) :
  let age := (now - date)%Z in
  let shown := formatDate intl_format now date (Some FormatRelative)
                          includeTime in
  ((age < 60000)%Z → shown = "just now")
  ∧ ((60000 ≤ age < 120000)%Z → shown = "1 minute ago")
  ∧ ((120000 ≤ age < 3600000)%Z →
     shown = pretty (Z.div age 60000) +:+ " minutes ago")
  ∧ ((3600000 ≤ age < 7200000)%Z → shown = "1 hour ago")
  ∧ ((7200000 ≤ age < 86400000)%Z →
     shown = pretty (Z.div age 3600000) +:+ " hours ago")
  ∧ ((86400000 ≤ age < 172800000)%Z → shown = "1 day ago")
  ∧ ((172800000 ≤ age < 604800000)%Z →
     shown = pretty (Z.div age 86400000) +:+ " days ago")
  ∧ ((604800000 ≤ age)%Z →
     shown = formatDate intl_format now date None None).
Proof.
  cbv zeta. unfold formatDate, getRelativeTimeString. simpl.
  set (age := (now - date)%Z).
  assert (Z.div (Z.div age 1000) 60 = Z.div age 60000) as Hm
    by by rewrite Z.div_div.
  assert (Z.div (Z.div (Z.div age 1000) 60) 60 = Z.div age 3600000) as Hh
    by by rewrite !Z.div_div.
  assert (Z.div (Z.div (Z.div (Z.div age 1000) 60) 60) 24
          = Z.div age 86400000) as Hd by by rewrite !Z.div_div.
  rewrite Hd, Hh, Hm.
  split_and!; intros Hage.
  - by decide_ranges.
  - replace (Z.div age 60000) with 1%Z
      by (Z.div_mod_to_equations; lia).
    by decide_ranges.
  - by decide_ranges.
  - replace (Z.div age 3600000) with 1%Z
      by (Z.div_mod_to_equations; lia).
    by decide_ranges.
  - by decide_ranges.
  - replace (Z.div age 86400000) with 1%Z
      by (Z.div_mod_to_equations; lia).
    by decide_ranges.
  - by decide_ranges.
  - by decide_ranges.
Qed.

End FormatDateFacts.

Lemma relative_time_ranges_witness :
  formatDate (λ _ _ date, pretty date) 1700000300000 1700000000000 (Some FormatRelative)
             (Some true)
  = pretty (Z.div (1700000300000 - 1700000000000) 60000) +:+ " minutes ago".
Proof.
  apply (relative_time_ranges (λ _ _ date, pretty date) 1700000300000 1700000000000 (Some true)).
  lia.
Defined.
